(** * Reachability-based path parameterization (toppra): a shallow embedding

    The development follows two source files:
    - [toppra/solverwrapper/solverwrapper.py]: the base class [SolverWrapper]
      (grid validation, step sizes, the abstract stage solve);
    - [toppra/algorithm/reachabilitybased/reachability_algorithm.py]: the class
      [ReachabilityAlgorithm] (backend selection, feasible sets, controllable
      sets, the forward pass).

    Numbers are IEEE-754 binary64 values (Python's float, numpy's float64),
    modelled by the primitive floats of the standard library; NaN is the
    value numpy uses as the "empty" marker.  The one operation on numbers
    that is not an IEEE-754 operation is the power [sd ** 2]: Python hands it
    to the C library's [pow], whose result can differ from the product
    [sd * sd] in the last place, and raises [OverflowError] when the power of
    a Python float is too large; it is a parameter of the development.
    Arrays are lists read and written by index; an index out of range raises
    [IndexError] as numpy does.  Calls to the solver
    wrapper are recorded in an event log, so that statements about the order
    of calls can be made.  Calls to the logger change neither the values nor
    the solver session and are left out. *)

From Stdlib Require Import ZArith Floats String Ascii.
From stdpp Require Import base list.

Set Warnings "-inexact-float".

(** ** Python exceptions, results and the call log *)

Inductive exn :=
  | AssertionError | IndexError | NotImplementedError | OverflowError.

Inductive result (A : Type) :=
  | Raise (e : exn)
  | Ret (a : A).
Arguments Raise {A} e.
Arguments Ret {A} a.

#[global] Instance result_ret : MRet result := @Ret.
#[global] Instance result_bind : MBind result :=
  fun A B f m => match m with Raise e => Raise e | Ret a => f a end.

#[global] Instance result_fmap : FMap result :=
  fun A B f m => match m with Raise e => Raise e | Ret a => Ret (f a) end.

(** [assert c] *)
Definition assert (c : bool) : result unit :=
  if c then Ret tt else Raise AssertionError.

(** [a[i]] and [a[i] = v] on a numpy array or a Python list. *)
Definition getitem {A} (a : list A) (i : nat) : result A :=
  match a !! i with
  | Some v => Ret v
  | None => Raise IndexError
  end.

Definition setitem {A} (a : list A) (i : nat) (v : A) : result (list A) :=
  if i <? length a then Ret (<[i:=v]> a) else Raise IndexError.

(** [for i in idx: s = body(i, s)], in any of the two monads. *)
Fixpoint for_each {M : Type -> Type} `{MBind M, MRet M} {S : Type}
    (idx : list nat) (body : nat -> S -> M S) (s : S) : M S :=
  match idx with
  | [] => mret s
  | i :: idx' => s' ← body i s; for_each idx' body s'
  end.

(** [range(n)] and [range(n - 1, -1, -1)]. *)
Definition range (n : nat) : list nat := seq 0 n.
Definition range_down (n : nat) : list nat := reverse (seq 0 n).

(** ** The data of the two classes *)

(** Modelled from the spec: the enumeration [ConstraintType] is declared in
    [toppra/constraint], which is not among the sources; the spec (section 6)
    distinguishes canonical (linear or quadratic) from conic constraints. *)
Inductive ConstraintType := CanonicalLinear | CanonicalConic.

Definition ConstraintType_eqb (a b : ConstraintType) : bool :=
  match a, b with
  | CanonicalLinear, CanonicalLinear | CanonicalConic, CanonicalConic => true
  | _, _ => false
  end.

(** The path, as far as this code uses it. *)
Record Interpolator := { get_path_interval : float * float }.

(** A row of an [(N+1, 2)] array: [K[i, 0]] and [K[i, 1]]. *)
Record interval := Interval { lo : float; hi : float }.

(** [np.isnan(k).any()] on a row, and on the whole array. *)
Definition isnan_any (k : interval) : bool := is_nan (lo k) || is_nan (hi k).
Definition isnan_any_rows (K : list interval) : bool := existsb isnan_any K.

(** The optimal variable [(u, x, v)] returned by a stage solve; on failure
    every entry is NaN. *)
Record optim_var := OptimVar { var_u : float; var_x : float; var_v : list float }.

(** The arguments of [solve_stagewise_optim]. *)
Record query := Query {
  q_i : nat;
  q_H : option (list (list float));
  q_g : list float;
  q_x_min : option float;
  q_x_max : option float;
  q_x_next_min : option float;
  q_x_next_max : option float }.

(** What [_forward_step] hands back, as [compute_parameterization] reads it:
    either a sequence whose entry [0] is [None], or an array [(u, x, v)] of
    [nV] numbers, the shape a stage solve returns. *)
Inductive forward_result :=
  | FirstIsNone
  | Optimal (r : optim_var).

(** The calls made on the solver wrapper; [ForwardStep] is the call of
    [_forward_step], inside which the stage solve of the forward pass is
    made. *)
Inductive event :=
  | SetupSolver
  | CloseSolver
  | SolveStagewiseOptim (q : query)
  | ForwardStep (i : nat) (x : float) (K_next : interval).

(** A computation: its outcome and the calls it made, in order. *)
Record M (A : Type) := Run { outcome : result A; log : list event }.
Arguments Run {A} outcome log.
Arguments outcome {A} m.
Arguments log {A} m.

#[global] Instance M_ret : MRet M := fun A a => Run (Ret a) [].
#[global] Instance M_bind : MBind M :=
  fun A B f m =>
    match outcome m with
    | Raise e => Run (Raise e) (log m)
    | Ret a => Run (outcome (f a)) (log m ++ log (f a))
    end.

(** A step that makes no call. *)
Definition pure {A} (r : result A) : M A := Run r [].

Section Classes.

(** The per-stage parameters a constraint computes are opaque to this code. *)
Context {Params : Type}.

Record Constraint := {
  get_constraint_type : ConstraintType;
  get_no_extra_vars : nat;
  compute_constraint_params : Interpolator -> list float -> Params }.

(** *** [SolverWrapper] *)

Record SolverWrapper := {
  constraints : list Constraint;
  path : Interpolator;
  path_discretization : list float;
  N : nat;
  deltas : list float;
  params : list Params;
  nV : nat }.

(** [SolverWrapper.__init__].  The attributes are computed first and the
    three checks follow; [path_discretization[-1]] is the last entry. *)
Definition SolverWrapper_init (constraint_list : list Constraint)
    (path : Interpolator) (path_discretization : list float)
    : result SolverWrapper :=
  let N := length path_discretization - 1 in
  let deltas :=
    zip_with PrimFloat.sub (drop 1 path_discretization)
             (take (length path_discretization - 1) path_discretization) in
  first ← getitem path_discretization 0;
  assert (fst (get_path_interval path) =? first)%float;;
  last ← getitem path_discretization (length path_discretization - 1);
  assert (snd (get_path_interval path) =? last)%float;;
  for_each (range N) (fun i _ =>
    a ← getitem path_discretization (i + 1);
    b ← getitem path_discretization i;
    assert (b <? a)%float) tt;;
  let params :=
    map (fun c => compute_constraint_params c path path_discretization)
        constraint_list in
  let nV := 2 + foldr Nat.add 0 (map get_no_extra_vars constraint_list) in
  Ret {| constraints := constraint_list; path := path;
         path_discretization := path_discretization;
         N := N; deltas := deltas; params := params; nV := nV |}.

(** The grid check in the words of the specification: the first and last
    samples equal the bounds of the path interval, and the samples increase
    strictly. *)
Fixpoint strictly_increasing (grid : list float) : bool :=
  match grid with
  | a :: (b :: _) as rest => (a <? b)%float && strictly_increasing rest
  | _ => true
  end.

Definition valid_grid (path : Interpolator) (grid : list float) : bool :=
  match head grid, last grid with
  | Some first, Some final =>
      (fst (get_path_interval path) =? first)%float
      && (snd (get_path_interval path) =? final)%float
      && strictly_increasing grid
  | _, _ => false
  end.

(** The step sizes [delta_i = s_{i+1} - s_i]. *)
Fixpoint step_sizes (grid : list float) : list float :=
  match grid with
  | a :: (b :: _) as rest => (b - a)%float :: step_sizes rest
  | _ => []
  end.

Definition get_no_stages (w : SolverWrapper) : nat := N w.
Definition get_no_vars (w : SolverWrapper) : nat := nV w.
Definition get_deltas (w : SolverWrapper) : list float := deltas w.

End Classes.

(** *** [ReachabilityAlgorithm.__init__]: choice of the solver wrapper *)

(** [str.lower()] on the ASCII letters. *)
Definition ascii_lower (c : ascii) : ascii :=
  let n := nat_of_ascii c in
  if (65 <=? n) && (n <=? 90) then ascii_of_nat (n + 32) else c.

Fixpoint str_lower (s : string) : string :=
  match s with
  | EmptyString => EmptyString
  | String c s' => String (ascii_lower c) (str_lower s')
  end.

(** [name in [...]] on a list of strings. *)
Definition str_in (name : string) (names : list string) : bool :=
  existsb (String.eqb name) names.

(** The four solver wrapper classes imported by the module. *)
Inductive WrapperClass :=
  | cvxpyWrapper
  | qpOASESSolverWrapper
  | hotqpOASESSolverWrapper
  | ecosWrapper.

Section Init.

Context {Params : Type}.

(** The constructors of the four classes are not part of these sources; each
    is called with the constraints, the path and the grid points. *)
Variable construct :
  WrapperClass -> list (@Constraint Params) -> Interpolator -> list float ->
  result (@SolverWrapper Params).

(** [has_conic] after the loop over [constraint_list]. *)
Definition has_conic (constraint_list : list (@Constraint Params)) : bool :=
  foldl (fun has c =>
           if ConstraintType_eqb (get_constraint_type c) CanonicalConic
           then true else has)
        false constraint_list.

(** The name after the [if solver_wrapper is None: ... else: ...] block. *)
Definition choose_name (conic : bool) (solver_wrapper : option string)
    : result string :=
  match solver_wrapper with
  | None => Ret (if conic then "ecos" else "qpOASES")%string
  | Some name =>
      (if conic
       then assert (str_in (str_lower name) ["cvxpy"; "ecos"]%string)
       else assert (str_in (str_lower name)
                      ["cvxpy"; "qpoases"; "ecos"; "hotqpoases"]%string));;
      Ret name
  end.

(** The [if ... elif ... else: raise NotImplementedError] chain. *)
Definition select (name : string) : result WrapperClass :=
  if String.eqb (str_lower name) "cvxpy" then Ret cvxpyWrapper
  else if String.eqb (str_lower name) "qpoases" then Ret qpOASESSolverWrapper
  else if String.eqb (str_lower name) "hotqpoases" then Ret hotqpOASESSolverWrapper
  else if String.eqb (str_lower name) "ecos" then Ret ecosWrapper
  else Raise NotImplementedError.

(** The object after construction: the class chosen and the wrapper built.
    [gridpoints] is the grid as the parent class stored it. *)
Definition ReachabilityAlgorithm_init (constraint_list : list (@Constraint Params))
    (path : Interpolator) (gridpoints : list float)
    (solver_wrapper : option string)
    : result (WrapperClass * @SolverWrapper Params) :=
  let conic := has_conic constraint_list in
  name ← choose_name conic solver_wrapper;
  cls ← select name;
  w ← construct cls constraint_list path gridpoints;
  Ret (cls, w).

(** The choice in the words of the specification: a table from names to
    classes, and the classes that can solve conic problems. *)
Definition class_of_name (name : string) : option WrapperClass :=
  if String.eqb name "cvxpy" then Some cvxpyWrapper
  else if String.eqb name "qpoases" then Some qpOASESSolverWrapper
  else if String.eqb name "hotqpoases" then Some hotqpOASESSolverWrapper
  else if String.eqb name "ecos" then Some ecosWrapper
  else None.

Definition conic_capable (cls : WrapperClass) : bool :=
  match cls with
  | cvxpyWrapper | ecosWrapper => true
  | qpOASESSolverWrapper | hotqpOASESSolverWrapper => false
  end.

Definition any_conic (constraint_list : list (@Constraint Params)) : bool :=
  existsb (fun c => ConstraintType_eqb (get_constraint_type c) CanonicalConic)
          constraint_list.

Definition init_spec (constraint_list : list (@Constraint Params))
    (path : Interpolator) (gridpoints : list float)
    (solver_wrapper : option string)
    : result (WrapperClass * @SolverWrapper Params) :=
  match solver_wrapper with
  | None =>
      let cls := if any_conic constraint_list
                 then ecosWrapper else qpOASESSolverWrapper in
      w ← construct cls constraint_list path gridpoints; Ret (cls, w)
  | Some name =>
      match class_of_name (str_lower name) with
      | None => Raise AssertionError
      | Some cls =>
          if any_conic constraint_list && negb (conic_capable cls)
          then Raise AssertionError
          else w ← construct cls constraint_list path gridpoints; Ret (cls, w)
      end
  end.

End Init.

(** The clamp [if k[0] < 0: k[0] = 0] on a row. *)
Definition clamp_lo (k : interval) : interval :=
  if (lo k <? 0)%float then Interval 0 (hi k) else k.

(** [k[0] <= x <= k[1]]. *)
Definition within (x : float) (k : interval) : bool :=
  ((lo k <=? x) && (x <=? hi k))%float.

(** Sessions: every stage call lies between a [setup_solver] and the
    [close_solver] that follows it, and no session is left open. *)
Definition is_stage_call (e : event) : bool :=
  match e with
  | SolveStagewiseOptim _ | ForwardStep _ _ _ => true
  | SetupSolver | CloseSolver => false
  end.

Definition is_solve (e : event) : bool :=
  match e with SolveStagewiseOptim _ => true | _ => false end.

Definition is_forward (e : event) : bool :=
  match e with ForwardStep _ _ _ => true | _ => false end.

Fixpoint bracketed (open : bool) (l : list event) : bool :=
  match l with
  | [] => negb open
  | SetupSolver :: l' => negb open && bracketed true l'
  | CloseSolver :: l' => open && bracketed false l'
  | (SolveStagewiseOptim _ | ForwardStep _ _ _) :: l' => open && bracketed open l'
  end.

(** ** The three computations of [ReachabilityAlgorithm] *)

Section ReachabilityAlgorithm.

Context {Params : Type}.

(** [toppra.constants.LARGE] and [SMALL]; the module is not among the
    sources, so both are parameters. *)
Variable LARGE SMALL : float.

(** Python's [x ** 2] on a number.  The operator belongs to the language and
    not to these sources: [pow2 x] is [Some y] when [x ** 2] evaluates to
    [y], and [None] when it raises [OverflowError], as it does for a Python
    float whose power is too large (on a numpy float64 the power is infinite
    instead).  Nothing is assumed about [y]; in particular it need not be
    the product [x * x]. *)
Variable pow2 : float -> option float.

Definition py_pow2 (x : float) : result float :=
  match pow2 x with
  | Some y => Ret y
  | None => Raise OverflowError
  end.

(** [self._N] and [self.solver_wrapper]. *)
Variable _N : nat.
Variable solver_wrapper : @SolverWrapper Params.

(** The stage solve of the concrete wrapper class, and the forward step of
    the concrete algorithm class; both are abstract in these sources. *)
Variable solve_stagewise_optim : query -> optim_var.
Variable _forward_step : nat -> float -> interval -> forward_result.

Definition setup_solver : M unit := Run (Ret tt) [SetupSolver].
Definition close_solver : M unit := Run (Ret tt) [CloseSolver].
Definition solve (q : query) : M optim_var :=
  Run (Ret (solve_stagewise_optim q)) [SolveStagewiseOptim q].
Definition forward_step (i : nat) (x : float) (K_next : interval)
    : M forward_result :=
  Run (Ret (_forward_step i x K_next)) [ForwardStep i x K_next].

(** [X[i, 0] = v] and [X[i, 1] = v]. *)
Definition set_lo (X : list interval) (i : nat) (v : float)
    : result (list interval) :=
  row ← getitem X i; setitem X i (Interval v (hi row)).
Definition set_hi (X : list interval) (i : nat) (v : float)
    : result (list interval) :=
  row ← getitem X i; setitem X i (Interval (lo row) v).

(** [compute_feasible_sets] *)
Definition compute_feasible_sets : M (list interval) :=
  let nV := get_no_vars solver_wrapper in
  let Hzero := replicate nV (replicate nV 0%float) in
  g_lower ← pure (setitem (replicate nV 0%float) 0 1e-9%float);
  g_lower ← pure (setitem g_lower 1 1%float);
  let X := replicate (_N + 1) (Interval 0 0) in
  setup_solver;;
  X ← for_each (range (_N + 1)) (fun i X =>
         r ← solve (Query i (Some Hzero) g_lower
                      (Some (- LARGE)%float) (Some LARGE)
                      (Some (- LARGE)%float) (Some LARGE));
         X ← pure (set_lo X i (var_x r));
         r ← solve (Query i (Some Hzero) (map PrimFloat.opp g_lower)
                      (Some (- LARGE)%float) (Some LARGE)
                      (Some (- LARGE)%float) (Some LARGE));
         pure (set_hi X i (var_x r))) X;
  close_solver;;
  for_each (range (_N + 1)) (fun i X =>
    row ← pure (getitem X i);
    if (lo row <? 0)%float then pure (set_lo X i 0%float) else mret X) X.

(** [_one_step]; the stage index is a natural number, so the test [i < 0]
    of the source is never true. *)
Definition _one_step (i : nat) (K_next : interval) : M interval :=
  if isnan_any K_next || (_N <? i) then mret (Interval nan nan)
  else
    let nV := get_no_vars solver_wrapper in
    g_upper ← pure (setitem (replicate nV 0%float) 0 1e-9%float);
    g_upper ← pure (setitem g_upper 1 (- 1)%float);
    r ← solve (Query i None g_upper None None
                 (Some (lo K_next)) (Some (hi K_next)));
    let x_upper := var_x r in
    r ← solve (Query i None (map PrimFloat.opp g_upper) None None
                 (Some (lo K_next)) (Some (hi K_next)));
    let x_lower := var_x r in
    mret (Interval x_lower x_upper).

(** [compute_controllable_sets].  In [K[self._N] = [sdmin ** 2, sdmax ** 2]]
    the two powers are evaluated, in this order, before the row is stored. *)
Definition compute_controllable_sets (sdmin sdmax : float) : M (list interval) :=
  pure (assert ((sdmin <=? sdmax) && (0 <=? sdmin))%float);;
  let K := replicate (_N + 1) (Interval 0 0) in
  x_min ← pure (py_pow2 sdmin);
  x_max ← pure (py_pow2 sdmax);
  K ← pure (setitem K _N (Interval x_min x_max));
  setup_solver;;
  K ← for_each (range_down _N) (fun i K =>
         K_next ← pure (getitem K (i + 1));
         res ← _one_step i K_next;
         K ← pure (setitem K i res);
         row ← pure (getitem K i);
         if (lo row <? 0)%float then pure (set_lo K i 0%float) else mret K) K;
  _ ← pure (getitem K 0);
  close_solver;;
  mret K.

(** Python's built-in [max(a, b)] and [min(a, b)]: the first argument is
    kept unless the second compares strictly greater (smaller). *)
Definition py_max (a b : float) : float := if (a <? b)%float then b else a.
Definition py_min (a b : float) : float := if (b <? a)%float then b else a.

(** The arrays [us], [xs] and [v_vec] of the forward pass. *)
Record profile := Profile {
  p_us : list float;
  p_xs : list float;
  p_v_vec : list (list float) }.

(** Lines 185 to 207 of [compute_parameterization]: the forward loop, from
    the allocation of the arrays to [close_solver].  Assigning [None] to an
    entry of a float array stores NaN. *)
Definition forward_pass (K : list interval) (x_start : float) : M profile :=
  let N := get_no_stages solver_wrapper in
  let deltas := get_deltas solver_wrapper in
  xs ← pure (setitem (replicate (N + 1) 0%float) 0 x_start);
  let us := replicate N 0%float in
  let v_vec := replicate N (replicate (get_no_vars solver_wrapper - 2) 0%float) in
  setup_solver;;
  p ← for_each (range _N) (fun i p =>
         x ← pure (getitem (p_xs p) i);
         K_next ← pure (getitem K (i + 1));
         optim_res ← forward_step i x K_next;
         match optim_res with
         | FirstIsNone =>
             us ← pure (setitem (p_us p) i nan);
             xs ← pure (setitem (p_xs p) (i + 1) nan);
             v_vec ← pure (setitem (p_v_vec p) i
                             (replicate (get_no_vars solver_wrapper - 2) nan));
             mret (Profile us xs v_vec)
         | Optimal r =>
             us ← pure (setitem (p_us p) i (var_u r));
             delta ← pure (getitem deltas i);
             u ← pure (getitem us i);
             xs ← pure (setitem (p_xs p) (i + 1)
                          (py_min (hi K_next)
                             (py_max (lo K_next) (x + 2 * delta * u)))%float);
             v_vec ← pure (setitem (p_v_vec p) i (var_v r));
             mret (Profile us xs v_vec)
         end) (Profile us xs v_vec);
  close_solver;;
  mret p.

(** [compute_parameterization]: [None] stands for the triple
    [(None, None, None)], [Some (sdd_vec, sd_vec, v_vec)] for the arrays. *)
Definition compute_parameterization (sd_start sd_end : float)
    : M (option (list float * list float * list (list float))) :=
  pure (assert ((0 <=? sd_end) && (0 <=? sd_start))%float);;
  K ← compute_controllable_sets sd_end sd_end;
  if isnan_any_rows K then mret None
  else
    x_start ← pure (py_pow2 sd_start);
    K0 ← pure (getitem K 0);
    if ((x_start + SMALL <? lo K0) || (hi K0 + SMALL <? x_start))%float
    then mret None
    else
      p ← forward_pass K x_start;
      let sd_vec := map PrimFloat.sqrt (p_xs p) in
      let sdd_vec := p_us p in
      mret (Some (sdd_vec, sd_vec, p_v_vec p)).

(** *** What the loops compute, stage by stage *)

(** The cost vector after [g = np.zeros(nV); g[0] = a; g[1] = b]. *)
Definition g_vec (a b : float) : list float :=
  <[1:=b]> (<[0:=a]> (replicate (get_no_vars solver_wrapper) 0%float)).

(** The two solves of stage [i] in [compute_feasible_sets] and the interval
    they give before the clamp. *)
Definition feasible_query (i : nat) (g : list float) : query :=
  let nV := get_no_vars solver_wrapper in
  Query i (Some (replicate nV (replicate nV 0%float))) g
        (Some (- LARGE)%float) (Some LARGE) (Some (- LARGE)%float) (Some LARGE).

Definition feasible_raw (i : nat) : interval :=
  Interval
    (var_x (solve_stagewise_optim (feasible_query i (g_vec 1e-9 1)%float)))
    (var_x (solve_stagewise_optim
              (feasible_query i (map PrimFloat.opp (g_vec 1e-9 1)%float)))).

(** The two solves of [_one_step] and its value. *)
Definition upper_query (i : nat) (K_next : interval) : query :=
  Query i None (g_vec 1e-9 (- 1))%float None None
        (Some (lo K_next)) (Some (hi K_next)).
Definition lower_query (i : nat) (K_next : interval) : query :=
  Query i None (map PrimFloat.opp (g_vec 1e-9 (- 1))%float) None None
        (Some (lo K_next)) (Some (hi K_next)).

Definition one_step_value (i : nat) (K_next : interval) : interval :=
  if isnan_any K_next || (_N <? i) then Interval nan nan
  else Interval (var_x (solve_stagewise_optim (lower_query i K_next)))
                (var_x (solve_stagewise_optim (upper_query i K_next))).

Definition one_step_log (i : nat) (K_next : interval) : list event :=
  if isnan_any K_next || (_N <? i) then []
  else [SolveStagewiseOptim (upper_query i K_next);
        SolveStagewiseOptim (lower_query i K_next)].

(** The state of the backward loop of [compute_controllable_sets] after [k]
    iterations: the rows from [_N - k] on are final, and every solve logged
    so far was made for a stage whose successor row holds no NaN. *)
Definition backward_inv (K_N : interval) (k : nat) (K : list interval)
    (l : list event) : Prop :=
  length K = _N + 1
  /\ K !! _N = Some K_N
  /\ (forall i, _N - k <= i -> i < _N ->
        exists kn, K !! (i + 1) = Some kn
                   /\ K !! i = Some (clamp_lo (one_step_value i kn)))
  /\ (forall q, SolveStagewiseOptim q ∈ l ->
        _N - k <= q_i q /\ q_i q < _N
        /\ exists kn, K !! (q_i q + 1) = Some kn /\ isnan_any kn = false)
  /\ Forall (fun e => is_solve e = true) l.

(** The two loops of [compute_feasible_sets] after [k] iterations. *)
Definition feasible_inv_solve (k : nat) (X : list interval) (l : list event)
    : Prop :=
  length X = _N + 1
  /\ (forall i, i < k -> X !! i = Some (feasible_raw i))
  /\ Forall (fun e => is_solve e = true) l.

Definition feasible_inv_clamp (k : nat) (X : list interval) (l : list event)
    : Prop :=
  length X = _N + 1
  /\ (forall i, i < k -> X !! i = Some (clamp_lo (feasible_raw i)))
  /\ (forall i, k <= i -> i < _N + 1 -> X !! i = Some (feasible_raw i))
  /\ l = [].

(** What stage [j] of the forward loop leaves in the three arrays. *)
Definition forward_stage (K : list interval) (p : profile) (j : nat) : Prop :=
  exists x kn d,
    p_xs p !! j = Some x
    /\ K !! (j + 1) = Some kn
    /\ deltas solver_wrapper !! j = Some d
    /\ match _forward_step j x kn with
       | FirstIsNone =>
           p_us p !! j = Some nan
           /\ p_xs p !! (j + 1) = Some nan
           /\ p_v_vec p !! j
              = Some (replicate (get_no_vars solver_wrapper - 2) nan)
       | Optimal r =>
           p_us p !! j = Some (var_u r)
           /\ p_xs p !! (j + 1)
              = Some (py_min (hi kn)
                        (py_max (lo kn) (x + 2 * d * var_u r)))%float
           /\ p_v_vec p !! j = Some (var_v r)
       end.

(** The forward loop after [k] iterations. *)
Definition forward_inv (K : list interval) (x_start : float) (k : nat)
    (p : profile) (l : list event) : Prop :=
  length (p_xs p) = N solver_wrapper + 1
  /\ length (p_us p) = N solver_wrapper
  /\ length (p_v_vec p) = N solver_wrapper
  /\ p_xs p !! 0 = Some x_start
  /\ (forall j, j < k -> forward_stage K p j)
  /\ Forall (fun e => is_forward e = true) l
  /\ length l = k.

(** What [__init__] guarantees about the wrapper and the stage count. *)
Definition well_formed : Prop :=
  _N = N solver_wrapper
  /\ length (deltas solver_wrapper) = N solver_wrapper
  /\ 2 <= nV solver_wrapper.

End ReachabilityAlgorithm.

(** *** The calls of the three computations, in order *)

Section Calls.

Context {Params : Type}.
Variable LARGE : float.
Variable _N : nat.
Variable solver_wrapper : @SolverWrapper Params.

(** The two solves [compute_feasible_sets] makes at stage [i]. *)
Definition feasible_calls (i : nat) : list event :=
  [SolveStagewiseOptim
     (feasible_query LARGE solver_wrapper i (g_vec solver_wrapper 1e-9 1)%float);
   SolveStagewiseOptim
     (feasible_query LARGE solver_wrapper i
        (map PrimFloat.opp (g_vec solver_wrapper 1e-9 1)%float))].

(** The solves [compute_controllable_sets] makes at stage [i], read off the
    array [K] it returns: those of [_one_step] on row [i + 1]. *)
Definition backward_calls (K : list interval) (i : nat) : list event :=
  match K !! (i + 1) with
  | Some K_next => one_step_log _N solver_wrapper i K_next
  | None => []
  end.

(** The call of [_forward_step] at stage [i], read off the arrays [K] and
    [xs]. *)
Definition forward_calls (K : list interval) (xs : list float) (i : nat)
    : list event :=
  match xs !! i, K !! (i + 1) with
  | Some x, Some K_next => [ForwardStep i x K_next]
  | _, _ => []
  end.

End Calls.

(** ** A concrete path: scenario A of the specification

    The grid is [0, 1, 2, 3], so [N = 3] and every step size is [1]; at every
    stage the constraints are [0 <= x <= 4] and [-1 <= u <= 1], and there is
    no auxiliary variable ([nV = 2]).  For these box constraints the stage
    problem has a closed-form solution, which stands for the solver. *)

Module Scenario.

Local Open Scope float_scope.

(** Values for the two constants of [toppra.constants]. *)
Definition LARGE : float := 1000.
Definition SMALL : float := 1e-5.

(** [x ** 2] on a Python float, for the numbers used below: [0], [1], [2]
    and [3], whose squares are exact, [2.000001], where the power is the
    product [x * x], and [1e200], where Python raises [OverflowError]
    because the square of a finite number exceeds every binary64 number.
    Elsewhere the power may differ from the product in the last place (at
    [2.759] it is [7.612080999999999], the product [7.612081]); the general
    statements hold for every power function and do not depend on this
    one. *)
Definition float_pow2 (x : float) : option float :=
  let y := x * x in
  if (is_infinity y && is_finite x)%bool then None else Some y.

Definition the_path : Interpolator := {| get_path_interval := (0, 3) |}.
Definition grid : list float := [0; 1; 2; 3].

Definition wrapper : @SolverWrapper unit :=
  {| constraints := []; path := the_path; path_discretization := grid;
     N := 3; deltas := [1; 1; 1]; params := []; nV := 2 |}.

Definition bound_or (d : float) (b : option float) : float :=
  match b with Some v => v | None => d end.

(** The stage solve: the extreme [x] with [0 <= x <= 4], [x_min <= x <= x_max]
    and [x_next_min <= x + 2 u <= x_next_max] for some [-1 <= u <= 1]; the
    sign of [g[1]] tells minimum from maximum.  NaN entries when there is no
    such [x]. *)
Definition box_solve (q : query) : optim_var :=
  let x_lo := py_max 0 (bound_or neg_infinity (q_x_min q)) in
  let x_hi := py_min 4 (bound_or infinity (q_x_max q)) in
  let x_least := py_max x_lo (bound_or neg_infinity (q_x_next_min q) - 2) in
  let x_most := py_min x_hi (bound_or infinity (q_x_next_max q) + 2) in
  if x_least <=? x_most then
    match q_g q !! 1%nat with
    | Some c => if c <? 0 then OptimVar 0 x_most [] else OptimVar 0 x_least []
    | None => OptimVar nan nan []
    end
  else OptimVar nan nan [].

(** A stage solve for looser constraints, [-1 <= x <= 4]: its minimum can
    be negative. *)
Definition loose_solve (q : query) : optim_var :=
  let x_lo := py_max (- 1) (bound_or neg_infinity (q_x_min q)) in
  let x_hi := py_min 4 (bound_or infinity (q_x_max q)) in
  let x_least := py_max x_lo (bound_or neg_infinity (q_x_next_min q) - 2) in
  let x_most := py_min x_hi (bound_or infinity (q_x_next_max q) + 2) in
  if x_least <=? x_most then
    match q_g q !! 1%nat with
    | Some c => if c <? 0 then OptimVar 0 x_most [] else OptimVar 0 x_least []
    | None => OptimVar nan nan []
    end
  else OptimVar nan nan [].

(** The forward step: the largest [-1 <= u <= 1] with
    [K_next[0] <= x + 2 u <= K_next[1]], passed on as the solver returns it;
    NaN entries when there is none. *)
Definition box_forward (i : nat) (x : float) (K_next : interval)
    : forward_result :=
  let u_lo := py_max (- 1) ((lo K_next - x) / 2) in
  let u_hi := py_min 1 ((hi K_next - x) / 2) in
  if u_lo <=? u_hi then Optimal (OptimVar u_hi x [])
  else Optimal (OptimVar nan nan []).

(** The same, the solver failing at stage [1]: by the contract of
    [solve_stagewise_optim] the array returned then contains NaN. *)
Definition failing_forward (i : nat) (x : float) (K_next : interval)
    : forward_result :=
  if Nat.eqb i 1 then Optimal (OptimVar nan nan []) else box_forward i x K_next.

(** The same, a forward step that answers [None] entries at stage [1]. *)
Definition none_forward (i : nat) (x : float) (K_next : interval)
    : forward_result :=
  if Nat.eqb i 1 then FirstIsNone else box_forward i x K_next.

(** The wrapper constructors, all four behaving as the base class. *)
Definition construct (cls : WrapperClass) (cs : list (@Constraint unit))
    (p : Interpolator) (g : list float) : result (@SolverWrapper unit) :=
  SolverWrapper_init cs p g.

(** A path of a single grid point: no stage. *)
Definition point_wrapper : @SolverWrapper unit :=
  {| constraints := []; path := {| get_path_interval := (0, 0) |};
     path_discretization := [0];
     N := 0; deltas := []; params := []; nV := 2 |}.

(** Two constraints, for the choice of the wrapper class. *)
Definition conic_constraint : @Constraint unit :=
  {| get_constraint_type := CanonicalConic;
     get_no_extra_vars := 1;
     compute_constraint_params := fun _ _ => tt |}.

Definition linear_constraint : @Constraint unit :=
  {| get_constraint_type := CanonicalLinear;
     get_no_extra_vars := 0;
     compute_constraint_params := fun _ _ => tt |}.

End Scenario.

(** ** Facts about binary64 comparisons *)

Module FloatFacts.

Local Open Scope float_scope.

Lemma SFcompare_refl (s : spec_float) :
  s <> S754_nan -> SFcompare s s = Some Eq.
Proof.
  destruct s as [sg|sg| |sg m e]; simpl; intros Hs; try congruence.
  - now destruct sg.
  - destruct sg; rewrite Z.compare_refl, Pos.compare_cont_refl; reflexivity.
Qed.

Lemma is_nan_Prim2SF (x : float) :
  is_nan x = true <-> Prim2SF x = S754_nan.
Proof.
  unfold is_nan. rewrite FloatAxioms.eqb_spec. unfold SFeqb.
  destruct (Prim2SF x) as [sg|sg| |sg m e] eqn:E.
  - rewrite SFcompare_refl by discriminate. simpl. split; discriminate.
  - rewrite SFcompare_refl by discriminate. simpl. split; discriminate.
  - simpl. tauto.
  - rewrite SFcompare_refl by discriminate. simpl. split; discriminate.
Qed.

Lemma not_nan_Prim2SF (x : float) :
  is_nan x = false <-> Prim2SF x <> S754_nan.
Proof.
  rewrite <- is_nan_Prim2SF. destruct (is_nan x); split; congruence.
Qed.

(** A comparison with NaN on either side is false. *)
Lemma ltb_nan_l (x y : float) : is_nan x = true -> (x <? y) = false.
Proof.
  rewrite is_nan_Prim2SF, FloatAxioms.ltb_spec. intros ->. reflexivity.
Qed.

Lemma ltb_nan_r (x y : float) : is_nan y = true -> (x <? y) = false.
Proof.
  rewrite is_nan_Prim2SF, FloatAxioms.ltb_spec. intros ->.
  unfold SFltb. now destruct (Prim2SF x) as [[]|[]| |[] ? ?].
Qed.

Lemma leb_nan_l (x y : float) : is_nan x = true -> (x <=? y) = false.
Proof.
  rewrite is_nan_Prim2SF, FloatAxioms.leb_spec. intros ->. reflexivity.
Qed.

Lemma leb_nan_r (x y : float) : is_nan y = true -> (x <=? y) = false.
Proof.
  rewrite is_nan_Prim2SF, FloatAxioms.leb_spec. intros ->.
  unfold SFleb. now destruct (Prim2SF x) as [[]|[]| |[] ? ?].
Qed.

Lemma ltb_not_nan (x y : float) :
  (x <? y) = true -> is_nan x = false /\ is_nan y = false.
Proof.
  intros H. split.
  - destruct (is_nan x) eqn:E; [|reflexivity].
    rewrite (ltb_nan_l x y E) in H. discriminate.
  - destruct (is_nan y) eqn:E; [|reflexivity].
    rewrite (ltb_nan_r x y E) in H. discriminate.
Qed.

Lemma leb_not_nan (x y : float) :
  (x <=? y) = true -> is_nan x = false /\ is_nan y = false.
Proof.
  intros H. split.
  - destruct (is_nan x) eqn:E; [|reflexivity].
    rewrite (leb_nan_l x y E) in H. discriminate.
  - destruct (is_nan y) eqn:E; [|reflexivity].
    rewrite (leb_nan_r x y E) in H. discriminate.
Qed.

Lemma leb_refl (x : float) : is_nan x = false -> (x <=? x) = true.
Proof.
  rewrite not_nan_Prim2SF, FloatAxioms.leb_spec. intros H.
  unfold SFleb. now rewrite SFcompare_refl.
Qed.

Lemma ltb_leb (x y : float) : (x <? y) = true -> (x <=? y) = true.
Proof.
  rewrite FloatAxioms.ltb_spec, FloatAxioms.leb_spec. unfold SFltb, SFleb.
  now destruct (SFcompare (Prim2SF x) (Prim2SF y)) as [[]|].
Qed.

Lemma Prim2SF_zero : Prim2SF 0 = S754_zero false.
Proof. reflexivity. Qed.

(** What the clamp [if x < 0: x = 0] leaves behind: a value that is not below
    zero is NaN or at least zero. *)
Lemma not_ltb_zero (x : float) :
  (x <? 0) = false -> is_nan x = false -> (0 <=? x) = true.
Proof.
  rewrite not_nan_Prim2SF, FloatAxioms.ltb_spec, FloatAxioms.leb_spec, Prim2SF_zero.
  destruct (Prim2SF x) as [[]|[]| |[] ? ?]; unfold SFltb, SFleb; simpl;
    intros; congruence.
Qed.

(** The rounding step never changes the sign it is given. *)
Lemma binary_round_aux_sign (sx : bool) (mx ex : Z) (lx : location) :
  let r := binary_round_aux prec emax sx mx ex lx in
  r = S754_nan \/ r = S754_zero sx \/ r = S754_infinity sx
  \/ exists m e, r = S754_finite sx m e.
Proof.
  unfold binary_round_aux.
  destruct (shr_fexp prec emax mx ex lx) as [mrs' e'].
  destruct (shr_fexp prec emax _ e' loc_Exact) as [mrs'' e''].
  destruct (shr_m mrs'') as [|m|m]; simpl; auto.
  destruct (Z.leb e'' (emax - prec)); [|now auto].
  right. right. right. now exists m, e''.
Qed.

(** The square of a value that is at least zero is NaN or at least zero. *)
Lemma square_nonneg (x : float) :
  (0 <=? x) = true -> is_nan (x * x) = false -> (0 <=? x * x) = true.
Proof.
  rewrite not_nan_Prim2SF, !FloatAxioms.leb_spec, FloatAxioms.mul_spec, Prim2SF_zero.
  unfold SF64mul.
  destruct (Prim2SF x) as [[]|[]| |[] m e]; unfold SFleb; simpl;
    try congruence.
  intros _.
  destruct (binary_round_aux_sign false (Z.pos (m * m)) (e + e) loc_Exact)
    as [H|[H|[H|(m' & e' & H)]]]; simpl in H; rewrite H; simpl; congruence.
Qed.

(** NaN spreads through products and sums. *)
Lemma mul_nan_r (x u : float) : is_nan u = true -> is_nan (x * u) = true.
Proof.
  rewrite !is_nan_Prim2SF, FloatAxioms.mul_spec. intros ->.
  unfold SF64mul, SFmul. now destruct (Prim2SF x).
Qed.

Lemma add_nan_r (x y : float) : is_nan y = true -> is_nan (x + y) = true.
Proof.
  rewrite !is_nan_Prim2SF, FloatAxioms.add_spec. intros ->.
  unfold SF64add, SFadd. now destruct (Prim2SF x).
Qed.

End FloatFacts.

(** ** Reasoning about computations *)

Section MonadFacts.

Lemma bind_pure_Ret {A B} (a : A) (f : A -> M B) :
  pure (Ret a) ≫= f = f a.
Proof. unfold pure, mbind, M_bind. simpl. now destruct (f a). Qed.

Lemma bind_Run {A B} (m : M A) (a : A) (l : list event) (f : A -> M B)
    (r : result B) (l' : list event) :
  m = Run (Ret a) l -> f a = Run r l' -> m ≫= f = Run r (l ++ l').
Proof. intros -> E. unfold mbind, M_bind. simpl. now rewrite E. Qed.

Lemma bind_Run_nil {A B} (m : M A) (a : A) (l : list event) (f : A -> M B)
    (r : result B) :
  m = Run (Ret a) l -> f a = Run r [] -> m ≫= f = Run r l.
Proof.
  intros Em Ef. rewrite <- (app_nil_r l). now apply bind_Run with a.
Qed.

Lemma getitem_Some {A} (a : list A) (i : nat) (v : A) :
  a !! i = Some v -> getitem a i = Ret v.
Proof. unfold getitem. now intros ->. Qed.

Lemma setitem_lt {A} (a : list A) (i : nat) (v : A) :
  i < length a -> setitem a i v = Ret (<[i:=v]> a).
Proof.
  intros Hi. unfold setitem.
  destruct (Nat.ltb_spec i (length a)) as [_|Hge]; [reflexivity|lia].
Qed.

Lemma set_lo_Some (X : list interval) (i : nat) (v : float) (row : interval) :
  X !! i = Some row -> set_lo X i v = Ret (<[i:=Interval v (hi row)]> X).
Proof.
  intros E. unfold set_lo. rewrite (getitem_Some _ _ _ E). simpl.
  apply setitem_lt. now apply lookup_lt_Some in E.
Qed.

Lemma set_hi_Some (X : list interval) (i : nat) (v : float) (row : interval) :
  X !! i = Some row -> set_hi X i v = Ret (<[i:=Interval (lo row) v]> X).
Proof.
  intros E. unfold set_hi. rewrite (getitem_Some _ _ _ E). simpl.
  apply setitem_lt. now apply lookup_lt_Some in E.
Qed.

Lemma range_lookup (n k i : nat) :
  range n !! k = Some i <-> i = k /\ k < n.
Proof.
  unfold range. rewrite lookup_seq. simpl. intuition lia.
Qed.

Lemma range_down_lookup (n k i : nat) :
  range_down n !! k = Some i <-> i = n - 1 - k /\ k < n.
Proof.
  unfold range_down. destruct (Nat.lt_ge_cases k n) as [Hk|Hk].
  - rewrite reverse_lookup by (rewrite length_seq; lia).
    rewrite length_seq, lookup_seq. simpl.
    replace (n - S k) with (n - 1 - k) by lia. intuition (try congruence; lia).
  - rewrite lookup_ge_None_2 by (rewrite length_reverse, length_seq; lia).
    intuition (try congruence; lia).
Qed.

Lemma range_length (n : nat) : length (range n) = n.
Proof. apply length_seq. Qed.

Lemma range_down_length (n : nat) : length (range_down n) = n.
Proof. unfold range_down. now rewrite length_reverse, length_seq. Qed.

(** The loop rule: an invariant over the number of iterations done, the
    loop state and the calls logged so far. *)
Lemma for_each_invariant {S : Type} (Inv : nat -> S -> list event -> Prop)
    (idx : list nat) (body : nat -> S -> M S) :
  (forall k i s l, idx !! k = Some i -> Inv k s l ->
     exists s' l', body i s = Run (Ret s') l' /\ Inv (Datatypes.S k) s' (l ++ l')) ->
  forall s l, Inv 0 s l ->
    exists s' l', for_each idx body s = Run (Ret s') l'
                  /\ Inv (length idx) s' (l ++ l').
Proof.
  revert Inv. induction idx as [|i idx IH]; intros Inv Hbody s l H0.
  - exists s, []. simpl. rewrite app_nil_r. now split.
  - destruct (Hbody 0 i s l eq_refl H0) as (s1 & l1 & E1 & H1).
    destruct (IH (fun k => Inv (Datatypes.S k))
                 (fun k j => Hbody (Datatypes.S k) j) s1 (l ++ l1) H1)
      as (s2 & l2 & E2 & H2).
    exists s2, (l1 ++ l2). split.
    + simpl. now apply bind_Run with s1.
    + simpl. now rewrite app_assoc.
Qed.

End MonadFacts.

(** ** Clamps and sessions *)

Section ClampFacts.

Import FloatFacts.

Lemma clamp_lo_isnan (k : interval) : isnan_any (clamp_lo k) = isnan_any k.
Proof.
  unfold clamp_lo, isnan_any.
  destruct (lo k <? 0)%float eqn:E; [|reflexivity].
  apply ltb_not_nan in E as [-> _]. reflexivity.
Qed.

Lemma clamp_lo_nan (k : interval) : is_nan (lo k) = true -> clamp_lo k = k.
Proof.
  intros H. unfold clamp_lo. now rewrite (ltb_nan_l _ 0%float H).
Qed.

Lemma clamp_lo_nonneg (k : interval) :
  is_nan (lo (clamp_lo k)) = false -> (0 <=? lo (clamp_lo k))%float = true.
Proof.
  unfold clamp_lo.
  destruct (lo k <? 0)%float eqn:E; simpl; [reflexivity|].
  now apply not_ltb_zero.
Qed.

(** [min(hi, max(lo, y))] lies between [lo] and [hi] when these are ordered
    numbers, whatever [y] is (NaN included). *)
Lemma py_min_max_within (l h y : float) :
  (l <=? h)%float = true ->
  within (py_min h (py_max l y)) (Interval l h) = true.
Proof.
  intros Hlh. destruct (leb_not_nan _ _ Hlh) as [Hl Hh].
  unfold within, py_min, py_max. simpl.
  destruct (l <? y)%float eqn:E1.
  - destruct (y <? h)%float eqn:E2.
    + now rewrite (ltb_leb _ _ E1), (ltb_leb _ _ E2).
    + now rewrite Hlh, (leb_refl _ Hh).
  - destruct (l <? h)%float eqn:E2.
    + now rewrite (leb_refl _ Hl), (ltb_leb _ _ E2).
    + now rewrite Hlh, (leb_refl _ Hh).
Qed.

(** With a NaN argument the clamp answers one of the two bounds. *)
Lemma py_min_max_nan (l h y : float) :
  is_nan y = true ->
  py_min h (py_max l y) = if (l <? h)%float then l else h.
Proof.
  intros Hy. unfold py_min, py_max. now rewrite (ltb_nan_r _ _ Hy).
Qed.

Lemma isnan_any_lo (k : interval) :
  isnan_any k = false -> is_nan (lo k) = false.
Proof. unfold isnan_any. intros H. now apply orb_false_elim in H. Qed.

Lemma isnan_any_rows_false (K : list interval) (i : nat) (k : interval) :
  isnan_any_rows K = false -> K !! i = Some k -> isnan_any k = false.
Proof.
  unfold isnan_any_rows. intros HK Ek.
  destruct (isnan_any k) eqn:E; [|reflexivity].
  assert (existsb isnan_any K = true); [|congruence].
  apply existsb_exists. exists k. split; [|exact E].
  apply list_elem_of_In. now apply list_elem_of_lookup_2 with i.
Qed.

Lemma bracketed_calls (l rest : list event) :
  Forall (fun e => is_stage_call e = true) l ->
  bracketed true (l ++ rest) = bracketed true rest.
Proof.
  induction 1 as [|e l He _ IH]; [reflexivity|].
  destruct e; simpl in *; try discriminate; exact IH.
Qed.

Lemma bracketed_session (l rest : list event) :
  Forall (fun e => is_stage_call e = true) l ->
  bracketed false (SetupSolver :: l ++ CloseSolver :: rest)
  = bracketed false rest.
Proof.
  intros H. simpl. now rewrite bracketed_calls.
Qed.

Lemma is_solve_stage_call (l : list event) :
  Forall (fun e => is_solve e = true) l ->
  Forall (fun e => is_stage_call e = true) l.
Proof. intros H. eapply Forall_impl; [exact H|]. now intros []. Qed.

Lemma is_forward_stage_call (l : list event) :
  Forall (fun e => is_forward e = true) l ->
  Forall (fun e => is_stage_call e = true) l.
Proof. intros H. eapply Forall_impl; [exact H|]. now intros []. Qed.

Lemma is_solve_not_forward (l : list event) :
  Forall (fun e => is_solve e = true) l ->
  Forall (fun e => is_forward e = false) l.
Proof. intros H. eapply Forall_impl; [exact H|]. now intros []. Qed.

End ClampFacts.

(** ** The computations, run *)

Import FloatFacts.

Section EngineFacts.

Context {Params : Type}.
Variable LARGE SMALL : float.
Variable pow2 : float -> option float.
Variable _N : nat.
Variable sw : @SolverWrapper Params.
Variable solve_opt : query -> optim_var.
Variable fwd : nat -> float -> interval -> forward_result.

Lemma g_vec_run {B} (a b : float) (k : list float -> M B) :
  2 <= nV sw ->
  (g ← pure (setitem (replicate (get_no_vars sw) 0%float) 0 a);
   g' ← pure (setitem g 1 b); k g') = k (g_vec sw a b).
Proof.
  intros HnV. unfold get_no_vars, g_vec.
  rewrite setitem_lt by (rewrite length_replicate; lia).
  rewrite bind_pure_Ret.
  rewrite setitem_lt by (rewrite length_insert, length_replicate; lia).
  now rewrite bind_pure_Ret.
Qed.

Lemma one_step_run (i : nat) (k : interval) :
  2 <= nV sw ->
  _one_step _N sw solve_opt i k
  = Run (Ret (one_step_value _N sw solve_opt i k)) (one_step_log _N sw i k).
Proof.
  intros HnV. unfold _one_step, one_step_value, one_step_log.
  destruct (isnan_any k || (_N <? i)); [reflexivity|].
  cbv zeta. rewrite g_vec_run by assumption.
  reflexivity.
Qed.

Lemma clamp_insert (K : list interval) (i : nat) (res : interval) :
  i < length K ->
  (row ← pure (getitem (<[i:=res]> K) i);
   if (lo row <? 0)%float then pure (set_lo (<[i:=res]> K) i 0%float)
   else mret (<[i:=res]> K))
  = Run (Ret (<[i:=clamp_lo res]> K)) [].
Proof.
  intros Hi.
  rewrite (getitem_Some _ _ res) by now apply list_lookup_insert_eq.
  rewrite bind_pure_Ret. unfold clamp_lo.
  destruct (lo res <? 0)%float; [|reflexivity].
  rewrite (set_lo_Some _ _ _ res) by now apply list_lookup_insert_eq.
  now rewrite list_insert_insert_eq.
Qed.

Lemma one_step_log_solve (i : nat) (kn : interval) (q : query) :
  SolveStagewiseOptim q ∈ one_step_log _N sw i kn ->
  q_i q = i /\ isnan_any kn = false.
Proof.
  unfold one_step_log.
  destruct (isnan_any kn) eqn:E; simpl.
  - intros H. now apply elem_of_nil in H.
  - destruct (_N <? i).
    + intros H. now apply elem_of_nil in H.
    + rewrite !elem_of_cons, elem_of_nil.
      intros [H|[H|[]]]; injection H as ->; now split.
Qed.

Lemma one_step_log_is_solve (i : nat) (kn : interval) :
  Forall (fun e => is_solve e = true) (one_step_log _N sw i kn).
Proof.
  unfold one_step_log.
  destruct (isnan_any kn || (_N <? i)); repeat constructor.
Qed.

Lemma backward_step (K_N : interval) (k i : nat) (K : list interval)
    (l : list event) :
  2 <= nV sw ->
  range_down _N !! k = Some i ->
  backward_inv _N sw solve_opt K_N k K l ->
  exists K' l',
    (K_next ← pure (getitem K (i + 1));
     res ← _one_step _N sw solve_opt i K_next;
     K1 ← pure (setitem K i res);
     row ← pure (getitem K1 i);
     if (lo row <? 0)%float then pure (set_lo K1 i 0%float) else mret K1)
    = Run (Ret K') l'
    /\ backward_inv _N sw solve_opt K_N (S k) K' (l ++ l').
Proof.
  intros HnV Hidx (Hlen & HN & Hrows & Hlog & Hsolve).
  apply range_down_lookup in Hidx as [-> Hk].
  set (i := _N - 1 - k) in *.
  assert (Hi : i + 1 < length K) by (subst i; lia).
  destruct (lookup_lt_is_Some_2 K (i + 1) Hi) as [kn Ekn].
  exists (<[i:=clamp_lo (one_step_value _N sw solve_opt i kn)]> K),
         (one_step_log _N sw i kn).
  split.
  - rewrite (getitem_Some _ _ _ Ekn), bind_pure_Ret.
    rewrite one_step_run by assumption.
    rewrite <- (app_nil_r (one_step_log _N sw i kn)) at 2.
    eapply bind_Run; [reflexivity|].
    rewrite setitem_lt by lia. rewrite bind_pure_Ret.
    apply clamp_insert. lia.
  - repeat split.
    + now rewrite length_insert.
    + rewrite list_lookup_insert_ne by (subst i; lia). exact HN.
    + intros j Hj1 Hj2.
      destruct (decide (j = i)) as [->|Hne].
      * exists kn. split.
        -- rewrite list_lookup_insert_ne by lia. exact Ekn.
        -- apply list_lookup_insert_eq. lia.
      * destruct (Hrows j) as (kj & E1 & E2); [subst i; lia|lia|].
        exists kj. split.
        -- rewrite list_lookup_insert_ne by (subst i; lia). exact E1.
        -- rewrite list_lookup_insert_ne by (subst i; lia). exact E2.
    + apply elem_of_app in H as [H|H].
      * destruct (Hlog q H) as (H1 & H2 & _). subst i. lia.
      * apply one_step_log_solve in H as [-> _]. subst i. lia.
    + apply elem_of_app in H as [H|H].
      * now destruct (Hlog q H) as (H1 & H2 & _).
      * apply one_step_log_solve in H as [-> _]. subst i. lia.
    + apply elem_of_app in H as [H|H].
      * destruct (Hlog q H) as (H1 & H2 & kq & E1 & E2).
        exists kq. split; [|exact E2].
        rewrite list_lookup_insert_ne by (subst i; lia). exact E1.
      * apply one_step_log_solve in H as [-> Hnan].
        exists kn. split; [|exact Hnan].
        rewrite list_lookup_insert_ne by lia. exact Ekn.
    + apply Forall_app. split; [exact Hsolve|apply one_step_log_is_solve].
Qed.

(** [compute_controllable_sets] when its assertion holds and the two powers
    are computed. *)
Lemma controllable_sets_run (sdmin sdmax x_min x_max : float) :
  well_formed _N sw ->
  ((sdmin <=? sdmax) && (0 <=? sdmin))%float = true ->
  pow2 sdmin = Some x_min -> pow2 sdmax = Some x_max ->
  exists K l,
    compute_controllable_sets pow2 _N sw solve_opt sdmin sdmax
    = Run (Ret K) (SetupSolver :: l ++ [CloseSolver])
    /\ backward_inv _N sw solve_opt (Interval x_min x_max) _N K l.
Proof.
  intros (HN & Hd & HnV) Hassert Hmin Hmax.
  unfold compute_controllable_sets, py_pow2. rewrite Hassert. simpl assert.
  rewrite bind_pure_Ret, Hmin, bind_pure_Ret, Hmax, bind_pure_Ret.
  rewrite setitem_lt by (rewrite length_replicate; lia).
  rewrite bind_pure_Ret.
  set (K_N := Interval x_min x_max).
  match goal with
  | |- context [for_each ?idx ?body ?s0] =>
      destruct (for_each_invariant (backward_inv _N sw solve_opt K_N) idx body
                  (fun k i s l => backward_step K_N k i s l HnV) s0 [])
        as (K & l & Eloop & HInv)
  end.
  - repeat split.
    + now rewrite length_insert, length_replicate.
    + apply list_lookup_insert_eq. rewrite length_replicate. lia.
    + intros i Hi1 Hi2. lia.
    + apply elem_of_nil in H. contradiction.
    + apply elem_of_nil in H. contradiction.
    + apply elem_of_nil in H. contradiction.
    + constructor.
  - rewrite range_down_length in HInv. simpl in HInv.
    exists K, l. split; [|exact HInv].
    change (SetupSolver :: l ++ [CloseSolver])
      with ([SetupSolver] ++ l ++ [CloseSolver]).
    eapply bind_Run; [reflexivity|].
    eapply bind_Run; [exact Eloop|].
    destruct HInv as (Hlen & _).
    destruct (lookup_lt_is_Some_2 K 0) as [K0 E0]; [lia|].
    rewrite (getitem_Some _ _ _ E0), bind_pure_Ret.
    reflexivity.
Qed.

Lemma controllable_sets_assert (sdmin sdmax : float) :
  ((sdmin <=? sdmax) && (0 <=? sdmin))%float = false ->
  compute_controllable_sets pow2 _N sw solve_opt sdmin sdmax
  = Run (Raise AssertionError) [].
Proof.
  intros Hassert. unfold compute_controllable_sets. now rewrite Hassert.
Qed.

(** When one of the two powers overflows, [compute_controllable_sets] raises
    before any call is made. *)
Lemma controllable_sets_overflow (sdmin sdmax : float) :
  ((sdmin <=? sdmax) && (0 <=? sdmin))%float = true ->
  pow2 sdmin = None \/ pow2 sdmax = None ->
  compute_controllable_sets pow2 _N sw solve_opt sdmin sdmax
  = Run (Raise OverflowError) [].
Proof.
  intros Hassert Hpow.
  unfold compute_controllable_sets, py_pow2. rewrite Hassert. simpl assert.
  rewrite bind_pure_Ret.
  destruct (pow2 sdmin) as [x_min|]; [|reflexivity].
  rewrite bind_pure_Ret.
  destruct Hpow as [Hpow|Hpow]; [discriminate|]. now rewrite Hpow.
Qed.

(** *** [compute_feasible_sets] *)

Lemma feasible_solve_step (k i : nat) (X : list interval) (l : list event) :
  range (_N + 1) !! k = Some i ->
  feasible_inv_solve LARGE _N sw solve_opt k X l ->
  exists X' l',
    (r ← solve solve_opt (feasible_query LARGE sw i (g_vec sw 1e-9 1)%float);
     X1 ← pure (set_lo X i (var_x r));
     r ← solve solve_opt
           (feasible_query LARGE sw i (map PrimFloat.opp (g_vec sw 1e-9 1)%float));
     pure (set_hi X1 i (var_x r)))
    = Run (Ret X') l'
    /\ feasible_inv_solve LARGE _N sw solve_opt (S k) X' (l ++ l').
Proof.
  intros Hidx (Hlen & Hrows & Hsolve).
  apply range_lookup in Hidx as [-> Hk].
  destruct (lookup_lt_is_Some_2 X k) as [row Erow]; [lia|].
  exists (<[k:=feasible_raw LARGE sw solve_opt k]> X).
  eexists. split.
  - eapply bind_Run; [reflexivity|].
    rewrite (set_lo_Some _ _ _ _ Erow), bind_pure_Ret.
    eapply bind_Run_nil; [reflexivity|].
    erewrite set_hi_Some by (apply list_lookup_insert_eq; lia).
    simpl. now rewrite list_insert_insert_eq.
  - repeat split.
    + now rewrite length_insert.
    + intros i Hi. destruct (decide (i = k)) as [->|Hne].
      * apply list_lookup_insert_eq. lia.
      * rewrite list_lookup_insert_ne by lia. apply Hrows. lia.
    + apply Forall_app. split; [exact Hsolve|]. repeat constructor.
Qed.

Lemma feasible_clamp_step (k i : nat) (X : list interval) (l : list event) :
  range (_N + 1) !! k = Some i ->
  feasible_inv_clamp LARGE _N sw solve_opt k X l ->
  exists X' l',
    (row ← pure (getitem X i);
     if (lo row <? 0)%float then pure (set_lo X i 0%float) else mret X)
    = Run (Ret X') l'
    /\ feasible_inv_clamp LARGE _N sw solve_opt (S k) X' (l ++ l').
Proof.
  intros Hidx (Hlen & Hdone & Htodo & ->).
  apply range_lookup in Hidx as [-> Hk].
  pose proof (Htodo k (Nat.le_refl k) Hk) as Erow.
  exists (<[k:=clamp_lo (feasible_raw LARGE sw solve_opt k)]> X), [].
  split.
  - rewrite (getitem_Some _ _ _ Erow), bind_pure_Ret. unfold clamp_lo.
    destruct (lo (feasible_raw LARGE sw solve_opt k) <? 0)%float.
    + now rewrite (set_lo_Some _ _ _ _ Erow).
    + now rewrite list_insert_id.
  - repeat split.
    + now rewrite length_insert.
    + intros i Hi. destruct (decide (i = k)) as [->|Hne].
      * apply list_lookup_insert_eq. lia.
      * rewrite list_lookup_insert_ne by lia. apply Hdone. lia.
    + intros i Hi1 Hi2. rewrite list_lookup_insert_ne by lia.
      apply Htodo; lia.
Qed.

(** [compute_feasible_sets] returns, row [i] being the clamped result of the
    two solves of stage [i]. *)
Lemma feasible_sets_run :
  well_formed _N sw ->
  exists X l,
    compute_feasible_sets LARGE _N sw solve_opt
    = Run (Ret X) (SetupSolver :: l ++ [CloseSolver])
    /\ length X = _N + 1
    /\ (forall i, i < _N + 1 ->
          X !! i = Some (clamp_lo (feasible_raw LARGE sw solve_opt i)))
    /\ Forall (fun e => is_solve e = true) l.
Proof.
  intros (HN & Hd & HnV).
  unfold compute_feasible_sets. cbv zeta.
  rewrite g_vec_run by assumption.
  match goal with
  | |- context [for_each ?idx ?body ?s0 ≫= _] =>
      destruct (for_each_invariant (feasible_inv_solve LARGE _N sw solve_opt)
                  idx body feasible_solve_step s0 [])
        as (X1 & l1 & Eloop1 & Hlen1 & Hrows1 & Hsolve1)
  end.
  { repeat split.
    - now rewrite length_replicate.
    - intros i Hi. lia.
    - constructor. }
  rewrite range_length in Hrows1. simpl in Hsolve1.
  destruct (for_each_invariant (feasible_inv_clamp LARGE _N sw solve_opt)
              (range (_N + 1)) _ feasible_clamp_step X1 [])
    as (X2 & l2 & Eloop2 & Hlen2 & Hrows2 & _ & El2).
  { repeat split; [exact Hlen1| |].
    - intros i Hi. lia.
    - intros i _ Hi. now apply Hrows1. }
  rewrite range_length in Hrows2. simpl in El2. subst l2.
  exists X2, l1. repeat split; [|exact Hlen2|exact Hrows2|exact Hsolve1].
  change (SetupSolver :: l1 ++ [CloseSolver])
    with ([SetupSolver] ++ l1 ++ [CloseSolver]).
  eapply bind_Run; [reflexivity|].
  eapply bind_Run; [exact Eloop1|].
  eapply bind_Run_nil; [reflexivity|].
  exact Eloop2.
Qed.

(** *** The forward pass *)

Lemma forward_stage_frame (K : list interval) (p p' : profile) (i j : nat) :
  j < i ->
  (forall n, n <= i -> p_xs p' !! n = p_xs p !! n) ->
  (forall n, n < i -> p_us p' !! n = p_us p !! n) ->
  (forall n, n < i -> p_v_vec p' !! n = p_v_vec p !! n) ->
  forward_stage sw fwd K p j -> forward_stage sw fwd K p' j.
Proof.
  intros Hj Hxs Hus Hvv (x & kn & d & Ex & Ek & Ed & Hres).
  exists x, kn, d. rewrite Hxs by lia. repeat split; try assumption.
  rewrite (Hxs (j + 1)), Hus, Hvv by lia. exact Hres.
Qed.

Lemma forward_step_run (K : list interval) (x_start : float) (k i : nat)
    (p : profile) (l : list event) :
  well_formed _N sw ->
  length K = _N + 1 ->
  range _N !! k = Some i ->
  forward_inv sw fwd K x_start k p l ->
  exists p' l',
    (x ← pure (getitem (p_xs p) i);
     K_next ← pure (getitem K (i + 1));
     optim_res ← forward_step fwd i x K_next;
     match optim_res with
     | FirstIsNone =>
         us ← pure (setitem (p_us p) i nan);
         xs ← pure (setitem (p_xs p) (i + 1) nan);
         v_vec ← pure (setitem (p_v_vec p) i
                         (replicate (get_no_vars sw - 2) nan));
         mret (Profile us xs v_vec)
     | Optimal r =>
         us ← pure (setitem (p_us p) i (var_u r));
         delta ← pure (getitem (get_deltas sw) i);
         u ← pure (getitem us i);
         xs ← pure (setitem (p_xs p) (i + 1)
                      (py_min (hi K_next)
                         (py_max (lo K_next) (x + 2 * delta * u)))%float);
         v_vec ← pure (setitem (p_v_vec p) i (var_v r));
         mret (Profile us xs v_vec)
     end)
    = Run (Ret p') l'
    /\ forward_inv sw fwd K x_start (S k) p' (l ++ l').
Proof.
  intros (HN & Hd & HnV) HK Hidx (Hxs & Hus & Hvv & H0 & Hst & Hlog & Hlen).
  apply range_lookup in Hidx as [-> Hk].
  destruct (lookup_lt_is_Some_2 (p_xs p) k) as [x Ex]; [lia|].
  destruct (lookup_lt_is_Some_2 K (k + 1)) as [kn Ekn]; [lia|].
  destruct (lookup_lt_is_Some_2 (deltas sw) k) as [d Ed]; [lia|].
  assert (Hframe : forall p' : profile,
             (forall n, n <= k -> p_xs p' !! n = p_xs p !! n) ->
             (forall n, n < k -> p_us p' !! n = p_us p !! n) ->
             (forall n, n < k -> p_v_vec p' !! n = p_v_vec p !! n) ->
             forward_stage sw fwd K p' k ->
             forall j, j < S k -> forward_stage sw fwd K p' j).
  { intros p' F1 F2 F3 Hk' j Hj. destruct (decide (j = k)) as [->|Hne].
    - exact Hk'.
    - apply (forward_stage_frame K p p' k j); auto. lia. apply Hst. lia. }
  rewrite (getitem_Some _ _ _ Ex), bind_pure_Ret.
  rewrite (getitem_Some _ _ _ Ekn), bind_pure_Ret.
  destruct (fwd k x kn) as [|r] eqn:Efwd.
  - exists (Profile (<[k:=nan]> (p_us p)) (<[k + 1:=nan]> (p_xs p))
                    (<[k:=replicate (get_no_vars sw - 2) nan]> (p_v_vec p))),
           [ForwardStep k x kn].
    split.
    + eapply bind_Run_nil; [reflexivity|]. rewrite Efwd.
      rewrite !setitem_lt by lia. now rewrite !bind_pure_Ret.
    + repeat split; simpl.
      * now rewrite length_insert.
      * now rewrite length_insert.
      * now rewrite length_insert.
      * rewrite list_lookup_insert_ne by lia. exact H0.
      * apply Hframe; simpl.
        -- intros n Hn. apply list_lookup_insert_ne. lia.
        -- intros n Hn. apply list_lookup_insert_ne. lia.
        -- intros n Hn. apply list_lookup_insert_ne. lia.
        -- exists x, kn, d. simpl.
           rewrite list_lookup_insert_ne by lia.
           repeat split; try assumption. rewrite Efwd.
           rewrite !list_lookup_insert_eq by lia. auto.
      * apply Forall_app. split; [exact Hlog|]. repeat constructor.
      * rewrite length_app. simpl. lia.
  - exists (Profile (<[k:=var_u r]> (p_us p))
                    (<[k + 1:=(py_min (hi kn)
                                 (py_max (lo kn) (x + 2 * d * var_u r)))%float]>
                       (p_xs p))
                    (<[k:=var_v r]> (p_v_vec p))),
           [ForwardStep k x kn].
    split.
    + eapply bind_Run_nil; [reflexivity|]. rewrite Efwd.
      rewrite (setitem_lt (p_us p)) by lia. rewrite bind_pure_Ret.
      unfold get_deltas. rewrite (getitem_Some _ _ _ Ed), bind_pure_Ret.
      rewrite (getitem_Some _ _ (var_u r))
        by (apply list_lookup_insert_eq; lia).
      rewrite bind_pure_Ret.
      rewrite !setitem_lt by lia. now rewrite !bind_pure_Ret.
    + repeat split; simpl.
      * now rewrite length_insert.
      * now rewrite length_insert.
      * now rewrite length_insert.
      * rewrite list_lookup_insert_ne by lia. exact H0.
      * apply Hframe; simpl.
        -- intros n Hn. apply list_lookup_insert_ne. lia.
        -- intros n Hn. apply list_lookup_insert_ne. lia.
        -- intros n Hn. apply list_lookup_insert_ne. lia.
        -- exists x, kn, d. simpl.
           rewrite list_lookup_insert_ne by lia.
           repeat split; try assumption. rewrite Efwd.
           rewrite !list_lookup_insert_eq by lia. auto.
      * apply Forall_app. split; [exact Hlog|]. repeat constructor.
      * rewrite length_app. simpl. lia.
Qed.

(** The forward pass returns; each of its [_N] stages leaves what
    [forward_stage] describes and makes one call. *)
Lemma forward_pass_run (K : list interval) (x_start : float) :
  well_formed _N sw ->
  length K = _N + 1 ->
  exists p l,
    forward_pass _N sw fwd K x_start
    = Run (Ret p) (SetupSolver :: l ++ [CloseSolver])
    /\ forward_inv sw fwd K x_start _N p l.
Proof.
  intros Hwf HK. pose proof Hwf as (HN & Hd & HnV).
  unfold forward_pass. cbv zeta. unfold get_no_stages.
  rewrite setitem_lt by (rewrite length_replicate; lia).
  rewrite bind_pure_Ret.
  match goal with
  | |- context [for_each ?idx ?body ?s0 ≫= _] =>
      destruct (for_each_invariant (forward_inv sw fwd K x_start) idx body
                  (fun k i s l => forward_step_run K x_start k i s l Hwf HK)
                  s0 [])
        as (p & l & Eloop & HInv)
  end.
  { repeat split; simpl.
    - now rewrite length_insert, length_replicate.
    - now rewrite length_replicate.
    - now rewrite length_replicate.
    - apply list_lookup_insert_eq. rewrite length_replicate. lia.
    - intros j Hj. lia.
    - constructor. }
  rewrite range_length in HInv. simpl in HInv.
  exists p, l. split; [|exact HInv].
  change (SetupSolver :: l ++ [CloseSolver])
    with ([SetupSolver] ++ l ++ [CloseSolver]).
  eapply bind_Run; [reflexivity|].
  eapply bind_Run; [exact Eloop|].
  reflexivity.
Qed.

(** *** [compute_parameterization] *)

Lemma end_assert (sd_start sd_end : float) :
  ((0 <=? sd_end) && (0 <=? sd_start))%float = true ->
  ((sd_end <=? sd_end) && (0 <=? sd_end))%float = true.
Proof.
  intros H. apply andb_prop in H as [H _].
  rewrite H. destruct (leb_not_nan _ _ H) as [_ Hnan].
  now rewrite (leb_refl _ Hnan).
Qed.

Lemma parameterization_assert (sd_start sd_end : float) :
  ((0 <=? sd_end) && (0 <=? sd_start))%float = false ->
  compute_parameterization SMALL pow2 _N sw solve_opt fwd sd_start sd_end
  = Run (Raise AssertionError) [].
Proof.
  intros Hassert. unfold compute_parameterization. now rewrite Hassert.
Qed.

(** When [sd_end ** 2] overflows, [compute_parameterization] raises before
    any call is made. *)
Lemma parameterization_overflow (sd_start sd_end : float) :
  ((0 <=? sd_end) && (0 <=? sd_start))%float = true ->
  pow2 sd_end = None ->
  compute_parameterization SMALL pow2 _N sw solve_opt fwd sd_start sd_end
  = Run (Raise OverflowError) [].
Proof.
  intros Hassert Hend. unfold compute_parameterization.
  rewrite Hassert. simpl assert. rewrite bind_pure_Ret.
  rewrite (controllable_sets_overflow sd_end sd_end (end_assert _ _ Hassert))
    by now left.
  reflexivity.
Qed.

(** The ways [compute_parameterization] ends once its assertion holds and
    [sd_end ** 2] is computed: the two early returns and the overflow of
    [sd_start ** 2], with the log of the backward pass alone, and the forward
    pass. *)
Lemma parameterization_run (sd_start sd_end x_end : float) :
  well_formed _N sw ->
  ((0 <=? sd_end) && (0 <=? sd_start))%float = true ->
  pow2 sd_end = Some x_end ->
  exists K lb K0,
    compute_controllable_sets pow2 _N sw solve_opt sd_end sd_end
    = Run (Ret K) (SetupSolver :: lb ++ [CloseSolver])
    /\ backward_inv _N sw solve_opt (Interval x_end x_end) _N K lb
    /\ K !! 0 = Some K0
    /\ if isnan_any_rows K
       then
         compute_parameterization SMALL pow2 _N sw solve_opt fwd sd_start sd_end
         = Run (Ret None) (SetupSolver :: lb ++ [CloseSolver])
       else
         match pow2 sd_start with
         | None =>
             compute_parameterization SMALL pow2 _N sw solve_opt fwd
               sd_start sd_end
             = Run (Raise OverflowError) (SetupSolver :: lb ++ [CloseSolver])
         | Some x_start =>
             if ((x_start + SMALL <? lo K0) || (hi K0 + SMALL <? x_start))%float
             then
               compute_parameterization SMALL pow2 _N sw solve_opt fwd
                 sd_start sd_end
               = Run (Ret None) (SetupSolver :: lb ++ [CloseSolver])
             else
               exists p lf,
                 compute_parameterization SMALL pow2 _N sw solve_opt fwd
                   sd_start sd_end
                 = Run (Ret (Some (p_us p, map PrimFloat.sqrt (p_xs p),
                                   p_v_vec p)))
                       ((SetupSolver :: lb ++ [CloseSolver])
                        ++ SetupSolver :: lf ++ [CloseSolver])
                 /\ forward_pass _N sw fwd K x_start
                    = Run (Ret p) (SetupSolver :: lf ++ [CloseSolver])
                 /\ forward_inv sw fwd K x_start _N p lf
         end.
Proof.
  intros Hwf Hassert Hend.
  destruct (controllable_sets_run sd_end sd_end x_end x_end Hwf
              (end_assert _ _ Hassert) Hend Hend)
    as (K & lb & Eb & HInv).
  pose proof HInv as (Hlen & _).
  destruct (lookup_lt_is_Some_2 K 0) as [K0 E0]; [lia|].
  exists K, lb, K0.
  split; [exact Eb|]. split; [exact HInv|]. split; [exact E0|].
  unfold compute_parameterization, py_pow2. rewrite Hassert. simpl assert.
  rewrite bind_pure_Ret.
  destruct (isnan_any_rows K) eqn:Enan.
  - eapply bind_Run_nil; [exact Eb|]. now rewrite Enan.
  - destruct (pow2 sd_start) as [x_start|].
    + destruct ((x_start + SMALL <? lo K0)
                || (hi K0 + SMALL <? x_start))%float eqn:Etol.
      * eapply bind_Run_nil; [exact Eb|]. rewrite Enan, bind_pure_Ret.
        rewrite (getitem_Some _ _ _ E0), bind_pure_Ret. now rewrite Etol.
      * destruct (forward_pass_run K x_start Hwf Hlen) as (p & lf & Ef & HF).
        exists p, lf. split; [|now split].
        eapply bind_Run; [exact Eb|]. rewrite Enan, bind_pure_Ret.
        rewrite (getitem_Some _ _ _ E0), bind_pure_Ret. rewrite Etol.
        eapply bind_Run_nil; [exact Ef|]. reflexivity.
    + eapply bind_Run_nil; [exact Eb|]. now rewrite Enan.
Qed.

(** When the forward step hands back an array whose control entry is NaN,
    as the solver does on failure, the branch for [None] is not taken: the
    next squared velocity is set to a bound of the next controllable set. *)
Lemma nan_control_stores_bound (K : list interval) (x_start : float)
    (p : profile) (l : list event) (i : nat) (x : float) (k : interval)
    (r : optim_var) :
  forward_inv sw fwd K x_start _N p l ->
  i < _N ->
  p_xs p !! i = Some x -> K !! (i + 1) = Some k ->
  fwd i x k = Optimal r -> is_nan (var_u r) = true ->
  p_us p !! i = Some (var_u r)
  /\ p_xs p !! (i + 1) = Some (if (lo k <? hi k)%float then lo k else hi k).
Proof.
  intros (_ & _ & _ & _ & Hst & _) Hi Ex Ek Efwd Hnan.
  destruct (Hst i Hi) as (x' & kn & d & Ex' & Ekn & Ed & Hres).
  rewrite Ex in Ex'. injection Ex' as <-.
  rewrite Ek in Ekn. injection Ekn as <-.
  rewrite Efwd in Hres. destruct Hres as (Hu & Hx & _).
  split; [exact Hu|]. rewrite Hx. f_equal.
  apply py_min_max_nan. now apply add_nan_r, mul_nan_r.
Qed.

(** ** The properties *)

Local Abbreviation feasible_sets := (compute_feasible_sets LARGE _N sw solve_opt).
Local Abbreviation controllable_sets :=
  (compute_controllable_sets pow2 _N sw solve_opt).
Local Abbreviation parameterization :=
  (compute_parameterization SMALL pow2 _N sw solve_opt fwd).

(** C2, as amended.  When [compute_parameterization] returns arrays, the
    squared velocities [xs] of its forward pass relate to the controllable
    sets [K] computed with the bounds [(sd_end, sd_end)] as follows: [xs[0]]
    is the value [x_start] of [sd_start ** 2], which is outside [K[0]] by at
    most [SMALL] on either side; for every stage [i < N], [xs[i + 1]] is NaN
    when the forward step of stage [i] returned [None], and otherwise it lies
    within [K[i + 1]] provided [K[i + 1, 0] <= K[i + 1, 1]]. *)
Theorem C2_profile_within_controllable_sets (sd_start sd_end : float)
    (arrays : list float * list float * list (list float)) :
  well_formed _N sw ->
  outcome (parameterization sd_start sd_end) = Ret (Some arrays) ->
  exists x_start K p,
    pow2 sd_start = Some x_start
    /\ outcome (controllable_sets sd_end sd_end) = Ret K
    /\ outcome (forward_pass _N sw fwd K x_start) = Ret p
    /\ arrays = (p_us p, map PrimFloat.sqrt (p_xs p), p_v_vec p)
    /\ length (p_xs p) = _N + 1
    /\ length K = _N + 1
    /\ (exists K0,
          K !! 0 = Some K0
          /\ p_xs p !! 0 = Some x_start
          /\ (x_start + SMALL <? lo K0)%float = false
          /\ (hi K0 + SMALL <? x_start)%float = false)
    /\ (forall i, i < _N ->
          exists x' k x,
            p_xs p !! i = Some x'
            /\ K !! (i + 1) = Some k
            /\ p_xs p !! (i + 1) = Some x
            /\ match fwd i x' k with
               | FirstIsNone => x = nan
               | Optimal _ =>
                   (lo k <=? hi k)%float = true -> within x k = true
               end).
Proof.
  intros Hwf Hret.
  destruct ((0 <=? sd_end) && (0 <=? sd_start))%float eqn:Hassert.
  2:{ rewrite (parameterization_assert _ _ Hassert) in Hret. discriminate. }
  destruct (pow2 sd_end) as [x_end|] eqn:Hend.
  2:{ rewrite (parameterization_overflow _ _ Hassert Hend) in Hret.
      discriminate. }
  destruct (parameterization_run sd_start sd_end x_end Hwf Hassert Hend)
    as (K & lb & K0 & Eb & HInv & E0 & Hcase).
  destruct (isnan_any_rows K) eqn:Enan.
  { rewrite Hcase in Hret. discriminate. }
  destruct (pow2 sd_start) as [x_start|] eqn:Hstart.
  2:{ rewrite Hcase in Hret. discriminate. }
  destruct ((x_start + SMALL <? lo K0)
            || (hi K0 + SMALL <? x_start))%float eqn:Etol.
  { rewrite Hcase in Hret. discriminate. }
  destruct Hcase as (p & lf & Ep & Ef & Hxs & Hus & Hvv & Hx0 & Hst & _).
  apply orb_false_elim in Etol as [Etol1 Etol2].
  pose proof Hwf as (HN & _). pose proof HInv as (HlenK & _).
  rewrite Ep in Hret. simpl in Hret. injection Hret as <-.
  exists x_start, K, p. rewrite Eb, Ef. simpl.
  split; [reflexivity|]. split; [reflexivity|]. split; [reflexivity|].
  split; [reflexivity|]. split; [lia|]. split; [exact HlenK|].
  split; [now exists K0|].
  intros i Hi.
  destruct (Hst i Hi) as (x' & kn & d & Ex' & Ekn & Ed & Hres).
  destruct (lookup_lt_is_Some_2 (p_xs p) (i + 1)) as [x Ex]; [lia|].
  exists x', kn, x.
  split; [exact Ex'|]. split; [exact Ekn|]. split; [exact Ex|].
  destruct (fwd i x' kn) as [|r].
  - destruct Hres as (_ & Ex2 & _). rewrite Ex in Ex2. now injection Ex2.
  - intros Hord. destruct Hres as (_ & Ex2 & _).
    rewrite Ex in Ex2. injection Ex2 as ->.
    destruct kn as [l h]. now apply py_min_max_within.
Qed.

(** C3, as amended.  Once the assertion holds and [sd_end ** 2] is computed,
    with [K] the controllable sets for the bounds [(sd_end, sd_end)]: the
    all-empty triple is returned exactly when [K] holds a NaN, or
    [sd_start ** 2] evaluates to a value [x_start] that is below [K[0, 0]]
    or above [K[0, 1]] by more than [SMALL]; the calls made are then those of
    the backward pass alone, none of them a forward step.  When [K] holds no
    NaN, the arrays are returned if [x_start] is within the tolerance, and
    [OverflowError] is raised, after the backward pass, if [sd_start ** 2]
    overflows. *)
Theorem C3_empty_triple_iff_infeasible (sd_start sd_end x_end : float) :
  well_formed _N sw ->
  ((0 <=? sd_end) && (0 <=? sd_start))%float = true ->
  pow2 sd_end = Some x_end ->
  exists K lb K0,
    controllable_sets sd_end sd_end = Run (Ret K) lb
    /\ K !! 0 = Some K0
    /\ (outcome (parameterization sd_start sd_end) = Ret None
        <-> isnan_any_rows K = true
            \/ exists x_start,
                 pow2 sd_start = Some x_start
                 /\ ((x_start + SMALL <? lo K0)
                     || (hi K0 + SMALL <? x_start))%float = true)
    /\ (outcome (parameterization sd_start sd_end) = Ret None ->
        log (parameterization sd_start sd_end) = lb
        /\ Forall (fun e => is_forward e = false) lb)
    /\ (isnan_any_rows K = false ->
        forall x_start,
          pow2 sd_start = Some x_start ->
          ((x_start + SMALL <? lo K0)
           || (hi K0 + SMALL <? x_start))%float = false ->
          exists arrays,
            outcome (parameterization sd_start sd_end) = Ret (Some arrays))
    /\ (isnan_any_rows K = false ->
        pow2 sd_start = None ->
        parameterization sd_start sd_end = Run (Raise OverflowError) lb).
Proof.
  intros Hwf Hassert Hend.
  destruct (parameterization_run sd_start sd_end x_end Hwf Hassert Hend)
    as (K & lb & K0 & Eb & HInv & E0 & Hcase).
  exists K, (SetupSolver :: lb ++ [CloseSolver]), K0.
  split; [exact Eb|]. split; [exact E0|].
  assert (Hnf : Forall (fun e => is_forward e = false)
                  (SetupSolver :: lb ++ [CloseSolver])).
  { destruct HInv as (_ & _ & _ & _ & Hsolve).
    apply is_solve_not_forward in Hsolve.
    constructor; [reflexivity|].
    apply Forall_app. split; [exact Hsolve|]. now constructor. }
  destruct (isnan_any_rows K) eqn:Enan.
  { rewrite Hcase. simpl.
    split; [split; auto|]. split; [auto|]. split; discriminate. }
  destruct (pow2 sd_start) as [x_start|] eqn:Hstart.
  - destruct ((x_start + SMALL <? lo K0)
              || (hi K0 + SMALL <? x_start))%float eqn:Etol.
    + rewrite Hcase. simpl.
      split; [split; [intros _; right; exists x_start; auto|auto]|].
      split; [auto|]. split; [|discriminate].
      intros _ x [= <-] Hx. congruence.
    + destruct Hcase as (p & lf & Ep & _). rewrite Ep. simpl.
      split.
      { split; [discriminate|].
        intros [H|(x & [= <-] & H)]; congruence. }
      split; [discriminate|]. split; [|discriminate].
      intros _ x _ _. eauto.
  - rewrite Hcase. simpl.
    split.
    { split; [discriminate|]. intros [H|(x & H & _)]; discriminate. }
    split; [discriminate|]. split; [|reflexivity].
    intros _ x [=].
Qed.

(** C4.  In the array returned by [compute_controllable_sets] (its assertion
    holds and the two powers are computed), a row that holds a NaN makes the
    row before it, and so every earlier row, the pair [(nan, nan)]; and every
    solve was made for a stage whose successor row holds no NaN. *)
Theorem C4_empty_propagates_backwards (sdmin sdmax x_min x_max : float) :
  well_formed _N sw ->
  ((sdmin <=? sdmax) && (0 <=? sdmin))%float = true ->
  pow2 sdmin = Some x_min -> pow2 sdmax = Some x_max ->
  exists K l,
    controllable_sets sdmin sdmax = Run (Ret K) l
    /\ length K = _N + 1
    /\ (forall i k, i < _N -> K !! (i + 1) = Some k -> isnan_any k = true ->
          K !! i = Some (Interval nan nan))
    /\ (forall i j k, K !! i = Some k -> isnan_any k = true -> j < i ->
          K !! j = Some (Interval nan nan))
    /\ (forall q, SolveStagewiseOptim q ∈ l ->
          q_i q < _N
          /\ exists k, K !! (q_i q + 1) = Some k /\ isnan_any k = false).
Proof.
  intros Hwf Hassert Hmin Hmax.
  destruct (controllable_sets_run sdmin sdmax x_min x_max Hwf Hassert
              Hmin Hmax)
    as (K & l & E & Hlen & HN & Hrows & Hlog & _).
  assert (Hone : forall i k, i < _N -> K !! (i + 1) = Some k ->
                   isnan_any k = true -> K !! i = Some (Interval nan nan)).
  { intros i k Hi Ek Hnan.
    destruct (Hrows i) as (kn & Ekn & Ei); [lia|exact Hi|].
    rewrite Ek in Ekn. injection Ekn as <-.
    rewrite Ei. unfold one_step_value. now rewrite Hnan. }
  exists K, (SetupSolver :: l ++ [CloseSolver]).
  split; [exact E|]. split; [exact Hlen|]. split; [exact Hone|]. split.
  - intros i j k Ek Hnan Hj.
    assert (Hi : i < _N + 1) by (apply lookup_lt_Some in Ek; lia).
    remember (i - j) as d eqn:Ed.
    revert i j k Ek Hnan Hj Hi Ed.
    induction d as [|d IH]; intros i j k Ek Hnan Hj Hi Ed; [lia|].
    destruct i as [|i]; [lia|].
    assert (Ei : K !! i = Some (Interval nan nan)).
    { apply (Hone i k); [lia| |exact Hnan].
      now replace (i + 1) with (S i) by lia. }
    destruct (decide (j = i)) as [->|Hne]; [exact Ei|].
    apply (IH i j (Interval nan nan)); try lia; [exact Ei|reflexivity].
  - intros q Hq.
    rewrite elem_of_cons, elem_of_app, elem_of_cons, elem_of_nil in Hq.
    destruct Hq as [Hq|[Hq|[Hq|[]]]]; try discriminate.
    destruct (Hlog q Hq) as (_ & H2 & H3). now split.
Qed.

(** C5, as amended.  For [v >= 0]: when [v ** 2] evaluates to [x],
    [compute_controllable_sets(v, v)] returns an array of [N + 1] rows whose
    last row is the pair [(x, x)], so neither the backward loop nor the clamp
    has changed it; when [v ** 2] raises [OverflowError], so does
    [compute_controllable_sets(v, v)], before any call is made. *)
Theorem C5_terminal_row_pinned (v : float) :
  well_formed _N sw ->
  (0 <=? v)%float = true ->
  match pow2 v with
  | Some x =>
      exists K l,
        controllable_sets v v = Run (Ret K) l
        /\ length K = _N + 1
        /\ K !! _N = Some (Interval x x)
  | None => controllable_sets v v = Run (Raise OverflowError) []
  end.
Proof.
  intros Hwf Hv.
  assert (Hassert : ((v <=? v) && (0 <=? v))%float = true).
  { apply (end_assert v v). now rewrite Hv. }
  destruct (pow2 v) as [x|] eqn:Hpow.
  - destruct (controllable_sets_run v v x x Hwf Hassert Hpow Hpow)
      as (K & l & E & Hlen & HN & _).
    exists K, (SetupSolver :: l ++ [CloseSolver]). auto.
  - apply controllable_sets_overflow; auto.
Qed.

(** C6.  Row [i] of the array returned by [compute_feasible_sets] is the
    pair the two solves of stage [i] answered, with the first entry replaced
    by [0] when it is negative and left alone otherwise; so a row without
    NaN has a first entry that is at least zero.  The same holds for every
    row [i < N] of [compute_controllable_sets] and the result of [_one_step]
    on row [i + 1].  Row [N] is the pair of powers
    [(sdmin ** 2, sdmax ** 2)]: when the value of [sdmin ** 2] is NaN or at
    least zero, every row without NaN of the array has a first entry that is
    at least zero. *)
Theorem C6_lower_bounds_nonnegative :
  well_formed _N sw ->
  (exists X l,
     feasible_sets = Run (Ret X) l
     /\ length X = _N + 1
     /\ (forall i, i < _N + 1 ->
           exists row,
             X !! i = Some row
             /\ let raw := feasible_raw LARGE sw solve_opt i in
                row = clamp_lo raw
                /\ ((lo raw <? 0)%float = true -> row = Interval 0 (hi raw))
                /\ ((lo raw <? 0)%float = false -> row = raw)
                /\ (isnan_any row = false -> (0 <=? lo row)%float = true))
     /\ (forall i k, X !! i = Some k -> isnan_any k = false ->
           (0 <=? lo k)%float = true))
  /\ (forall sdmin sdmax x_min x_max,
        ((sdmin <=? sdmax) && (0 <=? sdmin))%float = true ->
        pow2 sdmin = Some x_min -> pow2 sdmax = Some x_max ->
        exists K l,
          controllable_sets sdmin sdmax = Run (Ret K) l
          /\ length K = _N + 1
          /\ K !! _N = Some (Interval x_min x_max)
          /\ (forall i, i < _N ->
                exists kn row,
                  K !! (i + 1) = Some kn /\ K !! i = Some row
                  /\ let raw := one_step_value _N sw solve_opt i kn in
                     outcome (_one_step _N sw solve_opt i kn) = Ret raw
                     /\ row = clamp_lo raw
                     /\ ((lo raw <? 0)%float = true ->
                         row = Interval 0 (hi raw))
                     /\ ((lo raw <? 0)%float = false -> row = raw)
                     /\ (isnan_any row = false ->
                         (0 <=? lo row)%float = true))
          /\ ((is_nan x_min = false -> (0 <=? x_min)%float = true) ->
              forall i k, K !! i = Some k -> isnan_any k = false ->
                (0 <=? lo k)%float = true)).
Proof.
  intros Hwf.
  assert (Hclamp : forall raw : interval,
            ((lo raw <? 0)%float = true ->
             clamp_lo raw = Interval 0 (hi raw))
            /\ ((lo raw <? 0)%float = false -> clamp_lo raw = raw)
            /\ (isnan_any (clamp_lo raw) = false ->
                (0 <=? lo (clamp_lo raw))%float = true)).
  { intros raw. unfold clamp_lo.
    destruct (lo raw <? 0)%float eqn:E.
    - split; [reflexivity|]. split; [discriminate|reflexivity].
    - split; [discriminate|]. split; [reflexivity|].
      intros Hnan. apply isnan_any_lo in Hnan. now apply not_ltb_zero. }
  split.
  - destruct (feasible_sets_run Hwf) as (X & l & E & Hlen & Hrows & _).
    exists X, (SetupSolver :: l ++ [CloseSolver]).
    split; [exact E|]. split; [exact Hlen|]. split.
    + intros i Hi. eexists. split; [exact (Hrows i Hi)|].
      cbv zeta. split; [reflexivity|apply Hclamp].
    + intros i k Ek Hnan.
      assert (Hi : i < _N + 1) by (apply lookup_lt_Some in Ek; lia).
      rewrite (Hrows i Hi) in Ek. injection Ek as <-.
      now apply Hclamp.
  - intros sdmin sdmax x_min x_max Hassert Hmin Hmax.
    destruct (controllable_sets_run sdmin sdmax x_min x_max Hwf Hassert
                Hmin Hmax)
      as (K & l & E & Hlen & HN & Hrows & _).
    exists K, (SetupSolver :: l ++ [CloseSolver]).
    split; [exact E|]. split; [exact Hlen|]. split; [exact HN|]. split.
    + intros i Hi. destruct (Hrows i) as (kn & Ekn & Ei); [lia|exact Hi|].
      exists kn. eexists. split; [exact Ekn|]. split; [exact Ei|].
      cbv zeta. split; [|split; [reflexivity|apply Hclamp]].
      destruct Hwf as (_ & _ & HnV). now rewrite one_step_run.
    + intros Hpow i k Ek Hnan.
      assert (Hi : i < _N + 1) by (apply lookup_lt_Some in Ek; lia).
      destruct (decide (i = _N)) as [->|Hne].
      * rewrite HN in Ek. injection Ek as <-.
        apply isnan_any_lo in Hnan. now apply Hpow.
      * destruct (Hrows i) as (kn & _ & Ei); [lia|lia|].
        rewrite Ek in Ei. injection Ei as ->.
        now apply Hclamp.
Qed.

(** C9.  Each of the three entry points either fails its assertion before
    any call is made, or returns with a log in which every stage call lies
    inside a session opened by [setup_solver] and closed by [close_solver],
    the last call being a [close_solver]; this covers the early returns of
    [compute_parameterization].  The one other way out is the
    [OverflowError] of a power [sd ** 2]: it is raised with no session open,
    before any call or right after the [close_solver] of the backward
    pass. *)
Theorem C9_stage_calls_inside_sessions :
  well_formed _N sw ->
  (exists X l,
     feasible_sets = Run (Ret X) l
     /\ bracketed false l = true /\ last l = Some CloseSolver)
  /\ (forall sdmin sdmax,
        controllable_sets sdmin sdmax = Run (Raise AssertionError) []
        \/ controllable_sets sdmin sdmax = Run (Raise OverflowError) []
        \/ exists K l,
             controllable_sets sdmin sdmax = Run (Ret K) l
             /\ bracketed false l = true /\ last l = Some CloseSolver)
  /\ (forall sd_start sd_end,
        parameterization sd_start sd_end = Run (Raise AssertionError) []
        \/ (exists l,
              parameterization sd_start sd_end = Run (Raise OverflowError) l
              /\ bracketed false l = true
              /\ (l = [] \/ last l = Some CloseSolver))
        \/ exists r l,
             parameterization sd_start sd_end = Run (Ret r) l
             /\ bracketed false l = true /\ last l = Some CloseSolver).
Proof.
  intros Hwf.
  assert (Hsession : forall l rest,
            Forall (fun e => is_stage_call e = true) l ->
            bracketed false ((SetupSolver :: l ++ [CloseSolver]) ++ rest)
            = bracketed false rest).
  { intros l rest Hl. rewrite <- app_comm_cons, <- app_assoc.
    apply (bracketed_session l rest Hl). }
  assert (Hsession1 : forall l,
            Forall (fun e => is_stage_call e = true) l ->
            bracketed false (SetupSolver :: l ++ [CloseSolver]) = true).
  { intros l Hl. apply (bracketed_session l [] Hl). }
  assert (Hlast : forall l : list event,
            last (SetupSolver :: l ++ [CloseSolver]) = Some CloseSolver).
  { intros l. now rewrite app_comm_cons, last_snoc. }
  split; [|split].
  - destruct (feasible_sets_run Hwf) as (X & l & E & _ & _ & Hsolve).
    exists X, (SetupSolver :: l ++ [CloseSolver]).
    split; [exact E|]. split; [|apply Hlast].
    apply Hsession1. now apply is_solve_stage_call.
  - intros sdmin sdmax.
    destruct ((sdmin <=? sdmax) && (0 <=? sdmin))%float eqn:Hassert.
    2:{ left. now apply controllable_sets_assert. }
    right.
    destruct (pow2 sdmin) as [x_min|] eqn:Hmin.
    2:{ left. apply controllable_sets_overflow; auto. }
    destruct (pow2 sdmax) as [x_max|] eqn:Hmax.
    2:{ left. apply controllable_sets_overflow; auto. }
    right.
    destruct (controllable_sets_run sdmin sdmax x_min x_max Hwf Hassert
                Hmin Hmax)
      as (K & l & E & _ & _ & _ & _ & Hsolve).
    exists K, (SetupSolver :: l ++ [CloseSolver]).
    split; [exact E|]. split; [|apply Hlast].
    apply Hsession1. now apply is_solve_stage_call.
  - intros sd_start sd_end.
    destruct ((0 <=? sd_end) && (0 <=? sd_start))%float eqn:Hassert.
    2:{ left. now apply parameterization_assert. }
    right.
    destruct (pow2 sd_end) as [x_end|] eqn:Hend.
    2:{ left. exists []. split; [|split; [reflexivity|now left]].
        now apply parameterization_overflow. }
    destruct (parameterization_run sd_start sd_end x_end Hwf Hassert Hend)
      as (K & lb & K0 & _ & HInv & _ & Hcase).
    destruct HInv as (_ & _ & _ & _ & Hsolve).
    apply is_solve_stage_call in Hsolve.
    destruct (isnan_any_rows K).
    { right. eexists _, _. split; [exact Hcase|]. split; [|apply Hlast].
      apply (Hsession1 lb Hsolve). }
    destruct (pow2 sd_start) as [x_start|].
    2:{ left. eexists. split; [exact Hcase|].
        split; [apply (Hsession1 lb Hsolve)|]. right. apply Hlast. }
    right.
    destruct ((x_start + SMALL <? lo K0)
              || (hi K0 + SMALL <? x_start))%float.
    + eexists _, _. split; [exact Hcase|]. split; [|apply Hlast].
      apply (Hsession1 lb Hsolve).
    + destruct Hcase as (p & lf & Ep & _ & HF).
      destruct HF as (_ & _ & _ & _ & _ & Hfwd & _).
      apply is_forward_stage_call in Hfwd.
      eexists _, _. split; [exact Ep|]. split.
      * rewrite (Hsession lb _ Hsolve). apply (Hsession1 lf Hfwd).
      * change (SetupSolver :: lf ++ [CloseSolver])
          with ((SetupSolver :: lf) ++ [CloseSolver]).
        now rewrite app_assoc, last_snoc.
Qed.

(** C10.  The clamp keeps NaN rows: row [i] returned by
    [compute_feasible_sets] is the clamped pair of the two solves of stage
    [i]; it holds a NaN exactly when that pair does, and is that pair when
    its first entry is NaN.  The same for row [i < N] of
    [compute_controllable_sets], when it returns, and the result of
    [_one_step]. *)
Theorem C10_clamp_keeps_empty_rows :
  well_formed _N sw ->
  (exists X l,
     feasible_sets = Run (Ret X) l
     /\ forall i, i < _N + 1 ->
          exists row,
            X !! i = Some row
            /\ row = clamp_lo (feasible_raw LARGE sw solve_opt i)
            /\ isnan_any row = isnan_any (feasible_raw LARGE sw solve_opt i)
            /\ (is_nan (lo (feasible_raw LARGE sw solve_opt i)) = true ->
                row = feasible_raw LARGE sw solve_opt i))
  /\ (forall sdmin sdmax x_min x_max,
        ((sdmin <=? sdmax) && (0 <=? sdmin))%float = true ->
        pow2 sdmin = Some x_min -> pow2 sdmax = Some x_max ->
        exists K l,
          controllable_sets sdmin sdmax = Run (Ret K) l
          /\ forall i, i < _N ->
               exists kn row,
                 K !! (i + 1) = Some kn /\ K !! i = Some row
                 /\ outcome (_one_step _N sw solve_opt i kn)
                    = Ret (one_step_value _N sw solve_opt i kn)
                 /\ row = clamp_lo (one_step_value _N sw solve_opt i kn)
                 /\ isnan_any row
                    = isnan_any (one_step_value _N sw solve_opt i kn)
                 /\ (is_nan (lo (one_step_value _N sw solve_opt i kn)) = true ->
                     row = one_step_value _N sw solve_opt i kn)).
Proof.
  intros Hwf. split.
  - destruct (feasible_sets_run Hwf) as (X & l & E & Hlen & Hrows & _).
    exists X, (SetupSolver :: l ++ [CloseSolver]). split; [exact E|].
    intros i Hi. eexists. split; [exact (Hrows i Hi)|].
    split; [reflexivity|]. split.
    + apply clamp_lo_isnan.
    + apply clamp_lo_nan.
  - intros sdmin sdmax x_min x_max Hassert Hmin Hmax.
    destruct (controllable_sets_run sdmin sdmax x_min x_max Hwf Hassert
                Hmin Hmax)
      as (K & l & E & Hlen & HN & Hrows & _).
    exists K, (SetupSolver :: l ++ [CloseSolver]). split; [exact E|].
    intros i Hi. destruct (Hrows i) as (kn & Ekn & Ei); [lia|exact Hi|].
    exists kn. eexists. split; [exact Ekn|]. split; [exact Ei|].
    destruct Hwf as (_ & _ & HnV). split; [|split; [|split]].
    + now rewrite one_step_run.
    + reflexivity.
    + apply clamp_lo_isnan.
    + apply clamp_lo_nan.
Qed.

End EngineFacts.

(** ** Construction *)

Section ConstructionFacts.

Context {Params : Type}.

Lemma step_sizes_cons (a b : float) (grid : list float) :
  step_sizes (a :: b :: grid) = (b - a)%float :: step_sizes (b :: grid).
Proof. reflexivity. Qed.

Lemma step_sizes_zip (grid : list float) :
  zip_with PrimFloat.sub (drop 1 grid) (take (length grid - 1) grid)
  = step_sizes grid.
Proof.
  induction grid as [|a grid IH]; [reflexivity|].
  destruct grid as [|b grid]; [reflexivity|].
  rewrite step_sizes_cons, <- IH. cbn [length drop].
  rewrite !Nat.sub_succ, !Nat.sub_0_r. reflexivity.
Qed.

Lemma step_sizes_length (grid : list float) :
  length (step_sizes grid) = length grid - 1.
Proof.
  induction grid as [|a grid IH]; [reflexivity|].
  destruct grid as [|b grid]; [reflexivity|].
  rewrite step_sizes_cons. cbn [length] in *. lia.
Qed.

(** The loop of assertions over adjacent samples. *)
Lemma increasing_loop (pre grid : list float) :
  for_each (seq (length pre) (length grid - 1))
    (fun i (_ : unit) =>
       a ← getitem (pre ++ grid) (i + 1);
       b ← getitem (pre ++ grid) i;
       assert (b <? a)%float) tt
  = if strictly_increasing grid then Ret tt else Raise AssertionError.
Proof.
  revert pre. induction grid as [|a grid IH]; intros pre; [reflexivity|].
  destruct grid as [|b grid]; [reflexivity|].
  replace (length (a :: b :: grid) - 1) with (S (length (b :: grid) - 1))
    by (simpl; lia).
  cbn [seq for_each].
  rewrite (getitem_Some (pre ++ a :: b :: grid) (length pre + 1) b).
  2:{ rewrite lookup_app_r by lia.
      now replace (length pre + 1 - length pre) with 1 by lia. }
  rewrite (getitem_Some (pre ++ a :: b :: grid) (length pre) a).
  2:{ rewrite lookup_app_r by lia. now rewrite Nat.sub_diag. }
  cbn [strictly_increasing]. simpl mbind.
  destruct (a <? b)%float; [|reflexivity].
  simpl. specialize (IH (pre ++ [a])).
  rewrite length_app in IH. simpl in IH.
  replace (length pre + 1) with (S (length pre)) in IH by lia.
  rewrite <- app_assoc in IH. exact IH.
Qed.

(** [SolverWrapper.__init__], run. *)
Lemma SolverWrapper_init_run (constraint_list : list (@Constraint Params))
    (path : Interpolator) (grid : list float) :
  SolverWrapper_init constraint_list path grid
  = if valid_grid path grid
    then Ret {| constraints := constraint_list;
                path := path;
                path_discretization := grid;
                N := length grid - 1;
                deltas := step_sizes grid;
                params := map (fun c => compute_constraint_params c path grid)
                              constraint_list;
                nV := 2 + foldr Nat.add 0
                            (map get_no_extra_vars constraint_list) |}
    else Raise (match grid with [] => IndexError | _ => AssertionError end).
Proof.
  unfold SolverWrapper_init, valid_grid. rewrite step_sizes_zip.
  destruct grid as [|s0 grid]; [reflexivity|].
  set (g := s0 :: grid).
  assert (Elast : exists final, last g = Some final
                                /\ g !! (length g - 1) = Some final).
  { destruct (lookup_lt_is_Some_2 g (length g - 1)) as [final E];
      [simpl; lia|].
    exists final. split; [|exact E].
    rewrite last_lookup. now replace (pred (length g)) with (length g - 1) by lia. }
  destruct Elast as (final & -> & Efinal).
  rewrite (getitem_Some g 0 s0) by reflexivity.
  rewrite (getitem_Some _ _ _ Efinal).
  change (head g) with (Some s0). cbv beta iota.
  cbn [mbind result_bind].
  destruct (fst (get_path_interval path) =? s0)%float; [|reflexivity].
  cbn [assert andb mbind result_bind].
  destruct (snd (get_path_interval path) =? final)%float; [|reflexivity].
  cbn [assert andb mbind result_bind].
  pose proof (increasing_loop [] g) as Hloop.
  change (length (@nil float)) with 0 in Hloop.
  change ([] ++ g) with g in Hloop.
  unfold range. rewrite Hloop.
  destruct (strictly_increasing g); reflexivity.
Qed.

(** What a constructed wrapper guarantees to the algorithm. *)
Lemma init_well_formed (constraint_list : list (@Constraint Params))
    (path : Interpolator) (grid : list float) (w : @SolverWrapper Params) :
  SolverWrapper_init constraint_list path grid = Ret w ->
  well_formed (length grid - 1) w.
Proof.
  rewrite SolverWrapper_init_run.
  destruct (valid_grid path grid); [|discriminate].
  intros [= <-]. unfold well_formed. simpl.
  rewrite step_sizes_length. repeat split; lia.
Qed.

Lemma step_sizes_lookup (grid : list float) (i : nat) (a b : float) :
  grid !! i = Some a -> grid !! (i + 1) = Some b ->
  step_sizes grid !! i = Some (b - a)%float.
Proof.
  revert i. induction grid as [|s0 grid IH]; intros i Ea Eb; [discriminate|].
  destruct grid as [|s1 grid].
  { destruct i; discriminate. }
  destruct i as [|i].
  - injection Ea as ->. injection Eb as ->. reflexivity.
  - rewrite step_sizes_cons. apply IH; assumption.
Qed.

(** C7.  [SolverWrapper.__init__] raises when the first sample differs from
    the lower bound of the path interval, the last sample differs from the
    upper bound, or the samples do not increase strictly: [AssertionError]
    in these cases, [IndexError] when there is no sample at all.  Otherwise
    it returns the wrapper, with [N] one less than the number of samples and
    [deltas] the [N] differences of adjacent samples. *)
Theorem C7_init_checks_grid (constraint_list : list (@Constraint Params))
    (path : Interpolator) (grid : list float) :
  SolverWrapper_init constraint_list path grid
  = (if valid_grid path grid
     then Ret {| constraints := constraint_list;
                 path := path;
                 path_discretization := grid;
                 N := length grid - 1;
                 deltas := step_sizes grid;
                 params := map (fun c => compute_constraint_params c path grid)
                               constraint_list;
                 nV := 2 + foldr Nat.add 0
                             (map get_no_extra_vars constraint_list) |}
     else Raise (match grid with [] => IndexError | _ => AssertionError end))
  /\ length (step_sizes grid) = length grid - 1
  /\ forall i a b, grid !! i = Some a -> grid !! (i + 1) = Some b ->
       step_sizes grid !! i = Some (b - a)%float.
Proof.
  split; [apply SolverWrapper_init_run|].
  split; [apply step_sizes_length|apply step_sizes_lookup].
Qed.

Variable construct :
  WrapperClass -> list (@Constraint Params) -> Interpolator -> list float ->
  result (@SolverWrapper Params).

Lemma has_conic_any (constraint_list : list (@Constraint Params)) :
  has_conic constraint_list = any_conic constraint_list.
Proof.
  unfold has_conic, any_conic.
  assert (H : forall acc,
             foldl (fun has c =>
                      if ConstraintType_eqb (get_constraint_type c) CanonicalConic
                      then true else has) acc constraint_list
             = acc || existsb
                        (fun c => ConstraintType_eqb (get_constraint_type c)
                                    CanonicalConic) constraint_list).
  { induction constraint_list as [|c cs IH]; intros acc; simpl.
    - now rewrite orb_false_r.
    - rewrite IH.
      destruct (ConstraintType_eqb (get_constraint_type c) CanonicalConic);
        simpl; [now rewrite orb_true_r|reflexivity]. }
  apply H.
Qed.

Lemma select_class_of_name (name : string) :
  select name
  = match class_of_name (str_lower name) with
    | Some cls => Ret cls
    | None => Raise NotImplementedError
    end.
Proof.
  unfold select, class_of_name.
  repeat (destruct (String.eqb (str_lower name) _); [reflexivity|]).
  reflexivity.
Qed.

Lemma conic_names (name : string) :
  str_in name ["cvxpy"; "ecos"]%string
  = match class_of_name name with
    | Some cls => conic_capable cls
    | None => false
    end.
Proof.
  unfold str_in, class_of_name. cbn [existsb].
  destruct (String.eqb_spec name "cvxpy") as [->|_]; [reflexivity|].
  destruct (String.eqb_spec name "qpoases") as [->|_]; [reflexivity|].
  destruct (String.eqb_spec name "hotqpoases") as [->|_]; [reflexivity|].
  now destruct (String.eqb name "ecos").
Qed.

Lemma supported_names (name : string) :
  str_in name ["cvxpy"; "qpoases"; "ecos"; "hotqpoases"]%string
  = match class_of_name name with
    | Some _ => true
    | None => false
    end.
Proof.
  unfold str_in, class_of_name. cbn [existsb].
  destruct (String.eqb name "cvxpy"); [reflexivity|].
  destruct (String.eqb name "qpoases"); [reflexivity|].
  destruct (String.eqb name "hotqpoases"); [now rewrite orb_true_r|].
  now destruct (String.eqb name "ecos").
Qed.

(** C8.  With a conic constraint in the list, a named wrapper that cannot
    solve conic problems is refused with [AssertionError] and no name selects
    [ecosWrapper]; without one, each of the four names is accepted and no
    name selects [qpOASESSolverWrapper].  A name outside the four is refused
    in both cases.  The selected class is then constructed. *)
Theorem C8_wrapper_choice (constraint_list : list (@Constraint Params))
    (path : Interpolator) (gridpoints : list float)
    (solver_wrapper : option string) :
  ReachabilityAlgorithm_init construct constraint_list path gridpoints
    solver_wrapper
  = init_spec construct constraint_list path gridpoints solver_wrapper.
Proof.
  unfold ReachabilityAlgorithm_init, init_spec. rewrite has_conic_any.
  destruct solver_wrapper as [name|].
  - unfold choose_name. rewrite conic_names, supported_names.
    pose proof (select_class_of_name name) as Hsel.
    destruct (class_of_name (str_lower name)) as [cls|].
    + destruct (any_conic constraint_list); [destruct (conic_capable cls)|];
        cbn [assert andb negb mbind result_bind]; try reflexivity;
        now rewrite Hsel.
    + now destruct (any_conic constraint_list).
  - now destruct (any_conic constraint_list).
Qed.

End ConstructionFacts.

(** ** The scenario, run *)

Section ScenarioFacts.

Import Scenario.
Local Open Scope float_scope.

Lemma scenario_constructed :
  SolverWrapper_init [] the_path grid = Ret wrapper.
Proof. reflexivity. Qed.

Lemma scenario_well_formed : well_formed 3 wrapper.
Proof. unfold well_formed. simpl. repeat split; lia. Defined.

(** Scenario A: stopped at both ends, the profile rises to [sqrt 2] at the
    two inner grid points. *)
Example scenario_profile :
  outcome (compute_parameterization SMALL float_pow2 3 wrapper box_solve box_forward 0 0)
  = Ret (Some ([1; 0; -1], [0; sqrt 2; sqrt 2; 0], [[]; []; []])).
Proof. vm_compute. reflexivity. Qed.

(** Scenario B: a start velocity of [3] is not controllable. *)
Example scenario_start_too_fast :
  outcome (compute_parameterization SMALL float_pow2 3 wrapper box_solve box_forward 3 0)
  = Ret None.
Proof. vm_compute. reflexivity. Qed.

(** Scenario C: the feasible sets are [[0, 4]] at every grid point. *)
Example scenario_feasible_sets :
  outcome (compute_feasible_sets LARGE 3 wrapper box_solve)
  = Ret [Interval 0 4; Interval 0 4; Interval 0 4; Interval 0 4].
Proof. vm_compute. reflexivity. Qed.

(** The grid check and the choice of the wrapper class on small inputs. *)
Example grid_not_increasing :
  @SolverWrapper_init unit [] the_path [0; 1; 1; 3] = Raise AssertionError.
Proof. reflexivity. Qed.

Example grid_starts_late :
  @SolverWrapper_init unit [] the_path [0.5; 1; 2; 3] = Raise AssertionError.
Proof. reflexivity. Qed.

Example grid_ends_early :
  @SolverWrapper_init unit [] the_path [0; 1; 2] = Raise AssertionError.
Proof. reflexivity. Qed.

Example grid_empty :
  @SolverWrapper_init unit [] the_path [] = Raise IndexError.
Proof. reflexivity. Qed.

Example conic_refuses_qpoases :
  ReachabilityAlgorithm_init construct [linear_constraint; conic_constraint]
    the_path grid (Some "qpOASES"%string)
  = Raise AssertionError.
Proof. reflexivity. Qed.

Example conic_selects_ecos :
  fst <$> ReachabilityAlgorithm_init construct
            [linear_constraint; conic_constraint] the_path grid None
  = Ret ecosWrapper.
Proof. reflexivity. Qed.

Example linear_accepts_hotqpoases :
  fst <$> ReachabilityAlgorithm_init construct [linear_constraint]
            the_path grid (Some "hotqpOASES"%string)
  = Ret hotqpOASESSolverWrapper.
Proof. reflexivity. Qed.

Example linear_selects_qpoases :
  fst <$> ReachabilityAlgorithm_init construct [linear_constraint]
            the_path grid None
  = Ret qpOASESSolverWrapper.
Proof. reflexivity. Qed.

Example unknown_name_refused :
  ReachabilityAlgorithm_init construct [linear_constraint]
    the_path grid (Some "mosek"%string)
  = Raise AssertionError.
Proof. reflexivity. Qed.

(** C1, where the code departs from it.  The solver fails at stage [1] and
    hands back NaN entries; the forward pass stores NaN in [us[1]] but the
    number [K[2, 0] = 0] in [xs[2]], so the returned [sd_vec[2]] is [0] and
    not NaN.  The loop goes on to stage [2]. *)
Theorem C1_failed_stage_leaves_a_number :
  failing_forward 1 2 (Interval 0 2) = Optimal (OptimVar nan nan [])
  /\ outcome (compute_controllable_sets float_pow2 3 wrapper box_solve 0 0)
     = Ret [Interval 0 4; Interval 0 4; Interval 0 2; Interval 0 0]
  /\ outcome (forward_pass 3 wrapper failing_forward
                [Interval 0 4; Interval 0 4; Interval 0 2; Interval 0 0] 0)
     = Ret (Profile [1; nan; 0] [0; 2; 0; 0] [[]; []; []])
  /\ outcome (compute_parameterization SMALL float_pow2 3 wrapper box_solve
                failing_forward 0 0)
     = Ret (Some ([1; nan; 0], [0; sqrt 2; 0; 0], [[]; []; []])).
Proof. vm_compute. repeat split; reflexivity. Qed.

(** The branch the source has for a failed stage is taken when the forward
    step answers [None] entries: the three entries are NaN and the loop goes
    on. *)
Example none_stage_is_marked :
  outcome (compute_parameterization SMALL float_pow2 3 wrapper box_solve none_forward 0 0)
  = Ret (Some ([1; nan; 1], [0; sqrt 2; nan; 0], [[]; []; []])).
Proof. vm_compute. reflexivity. Qed.

(** The power at the scenario: exact squares, and the overflow of a Python
    float. *)
Example scenario_powers :
  float_pow2 0 = Some 0 /\ float_pow2 2 = Some 4 /\ float_pow2 3 = Some 9
  /\ float_pow2 1e200 = None.
Proof. vm_compute. repeat split; reflexivity. Qed.

(** Whatever it is given that is at least zero, [float_pow2] answers NaN or
    a number that is at least zero. *)
Lemma float_pow2_nonneg (v y : float) :
  (0 <=? v) = true -> float_pow2 v = Some y -> is_nan y = false ->
  (0 <=? y) = true.
Proof.
  intros Hv. unfold float_pow2. cbv zeta.
  destruct (is_infinity (v * v) && is_finite v)%bool; [discriminate|].
  intros [= <-]. now apply square_nonneg.
Qed.

(** With the looser constraints the solves answer [-1] as the least [x], and
    the arrays returned hold [0] instead. *)
Example loose_bounds_are_clamped :
  feasible_raw LARGE wrapper loose_solve 0 = Interval (-1) 4
  /\ outcome (compute_feasible_sets LARGE 3 wrapper loose_solve)
     = Ret [Interval 0 4; Interval 0 4; Interval 0 4; Interval 0 4]
  /\ one_step_value 3 wrapper loose_solve 2 (Interval 0 0) = Interval (-1) 2
  /\ outcome (compute_controllable_sets float_pow2 3 wrapper loose_solve 0 0)
     = Ret [Interval 0 4; Interval 0 4; Interval 0 2; Interval 0 0].
Proof. vm_compute. repeat split; reflexivity. Qed.

(** C2 as stated fails at [i = 0]: with [sd_start = 2.000001] the arrays are
    returned, and [xs[0] = sd_start ** 2] exceeds [K[0, 1] = 4]. *)
Lemma C2_start_outside_first_set :
  exists arrays K p K0 x0,
    outcome (compute_parameterization SMALL float_pow2 3 wrapper box_solve
               box_forward 2.000001 0) = Ret (Some arrays)
    /\ outcome (compute_controllable_sets float_pow2 3 wrapper box_solve 0 0)
       = Ret K
    /\ float_pow2 2.000001 = Some x0
    /\ outcome (forward_pass 3 wrapper box_forward K x0) = Ret p
    /\ arrays = (p_us p, map PrimFloat.sqrt (p_xs p), p_v_vec p)
    /\ K !! 0%nat = Some K0
    /\ p_xs p !! 0%nat = Some x0
    /\ K0 = Interval 0 4
    /\ (4 <? x0) = true
    /\ within x0 K0 = false.
Proof.
  eexists _, [Interval 0 4; Interval 0 4; Interval 0 2; Interval 0 0],
          _, _, (2.000001 * 2.000001).
  vm_compute. repeat split; reflexivity.
Qed.

(** C3 as stated fails when [sd_start ** 2] overflows: with the Python float
    [sd_start = 1e200] the assertion holds and the controllable sets hold no
    NaN; the square is far above [K[0, 1] = 4], yet no triple is returned:
    the power raises [OverflowError], after the backward pass. *)
Lemma C3_start_square_overflows :
  ((0 <=? 0) && (0 <=? 1e200))%bool = true
  /\ outcome (compute_controllable_sets float_pow2 3 wrapper box_solve 0 0)
     = Ret [Interval 0 4; Interval 0 4; Interval 0 2; Interval 0 0]
  /\ isnan_any_rows [Interval 0 4; Interval 0 4; Interval 0 2; Interval 0 0]
     = false
  /\ float_pow2 1e200 = None
  /\ (4 + SMALL <? 1e200 * 1e200) = true
  /\ outcome (compute_parameterization SMALL float_pow2 3 wrapper box_solve
                box_forward 1e200 0)
     = Raise OverflowError
  /\ outcome (compute_parameterization SMALL float_pow2 3 wrapper box_solve
                box_forward 1e200 0)
     <> Ret None.
Proof. vm_compute. repeat split; (reflexivity || discriminate). Qed.

(** C5 as stated fails for the Python float [v = 1e200]: [v >= 0], and
    [compute_controllable_sets(v, v)] returns no array but raises
    [OverflowError]. *)
Lemma C5_square_overflows :
  (0 <=? 1e200) = true
  /\ float_pow2 1e200 = None
  /\ compute_controllable_sets float_pow2 3 wrapper box_solve 1e200 1e200
     = Run (Raise OverflowError) []
  /\ forall K l,
       compute_controllable_sets float_pow2 3 wrapper box_solve 1e200 1e200
       <> Run (Ret K) l.
Proof.
  split; [reflexivity|]. split; [reflexivity|]. split; [reflexivity|].
  intros K l. vm_compute. discriminate.
Qed.

(** The properties at scenario A. *)

Lemma C2_scenario :
  well_formed 3 wrapper
  /\ outcome (compute_parameterization SMALL float_pow2 3 wrapper box_solve
                none_forward 0 0)
     = Ret (Some ([1; nan; 1], [0; sqrt 2; nan; 0], [[]; []; []]))
  /\ exists x_start K p,
       float_pow2 0 = Some x_start
       /\ outcome (compute_controllable_sets float_pow2 3 wrapper box_solve
                     0 0) = Ret K
       /\ outcome (forward_pass 3 wrapper none_forward K x_start) = Ret p
       /\ ([1; nan; 1], [0; sqrt 2; nan; 0], [[]; []; []])
          = (p_us p, map PrimFloat.sqrt (p_xs p), p_v_vec p)
       /\ length (p_xs p) = (3 + 1)%nat
       /\ length K = (3 + 1)%nat
       /\ (exists K0,
             K !! 0%nat = Some K0
             /\ p_xs p !! 0%nat = Some x_start
             /\ (x_start + SMALL <? lo K0) = false
             /\ (hi K0 + SMALL <? x_start) = false)
       /\ (forall i : nat, (i < 3)%nat ->
             exists x' k x,
               p_xs p !! i = Some x'
               /\ K !! (i + 1)%nat = Some k
               /\ p_xs p !! (i + 1)%nat = Some x
               /\ match none_forward i x' k with
                  | FirstIsNone => x = nan
                  | Optimal _ => (lo k <=? hi k) = true -> within x k = true
                  end).
Proof.
  split; [exact scenario_well_formed|]. split; [vm_compute; reflexivity|].
  apply (C2_profile_within_controllable_sets SMALL float_pow2 3 wrapper
           box_solve none_forward 0 0 _ scenario_well_formed).
  vm_compute. reflexivity.
Defined.

Lemma C3_scenario :
  well_formed 3 wrapper
  /\ ((0 <=? 0) && (0 <=? 3))%bool = true
  /\ float_pow2 0 = Some 0
  /\ exists K lb K0,
       compute_controllable_sets float_pow2 3 wrapper box_solve 0 0
       = Run (Ret K) lb
       /\ K !! 0%nat = Some K0
       /\ (outcome (compute_parameterization SMALL float_pow2 3 wrapper
                      box_solve box_forward 3 0) = Ret None
           <-> isnan_any_rows K = true
               \/ exists x_start,
                    float_pow2 3 = Some x_start
                    /\ ((x_start + SMALL <? lo K0)
                        || (hi K0 + SMALL <? x_start))%bool = true)
       /\ (outcome (compute_parameterization SMALL float_pow2 3 wrapper
                      box_solve box_forward 3 0) = Ret None ->
           log (compute_parameterization SMALL float_pow2 3 wrapper
                  box_solve box_forward 3 0) = lb
           /\ Forall (fun e => is_forward e = false) lb)
       /\ (isnan_any_rows K = false ->
           forall x_start,
             float_pow2 3 = Some x_start ->
             ((x_start + SMALL <? lo K0)
              || (hi K0 + SMALL <? x_start))%bool = false ->
             exists arrays,
               outcome (compute_parameterization SMALL float_pow2 3 wrapper
                          box_solve box_forward 3 0) = Ret (Some arrays))
       /\ (isnan_any_rows K = false ->
           float_pow2 3 = None ->
           compute_parameterization SMALL float_pow2 3 wrapper box_solve
             box_forward 3 0
           = Run (Raise OverflowError) lb).
Proof.
  split; [exact scenario_well_formed|]. split; [reflexivity|].
  split; [reflexivity|].
  apply (C3_empty_triple_iff_infeasible SMALL float_pow2 3 wrapper box_solve
           box_forward 3 0 0 scenario_well_formed); reflexivity.
Defined.

Lemma C4_scenario :
  well_formed 3 wrapper
  /\ ((3 <=? 3) && (0 <=? 3))%bool = true
  /\ float_pow2 3 = Some 9
  /\ exists K l,
       compute_controllable_sets float_pow2 3 wrapper box_solve 3 3
       = Run (Ret K) l
       /\ length K = (3 + 1)%nat
       /\ (forall (i : nat) k, (i < 3)%nat -> K !! (i + 1)%nat = Some k ->
             isnan_any k = true -> K !! i = Some (Interval nan nan))
       /\ (forall (i j : nat) k, K !! i = Some k -> isnan_any k = true ->
             (j < i)%nat -> K !! j = Some (Interval nan nan))
       /\ (forall q, SolveStagewiseOptim q ∈ l ->
             (q_i q < 3)%nat
             /\ exists k, K !! (q_i q + 1)%nat = Some k
                          /\ isnan_any k = false).
Proof.
  split; [exact scenario_well_formed|]. split; [reflexivity|].
  split; [reflexivity|].
  apply (C4_empty_propagates_backwards float_pow2 3 wrapper box_solve 3 3 9 9
           scenario_well_formed); reflexivity.
Defined.

Lemma C5_scenario :
  well_formed 3 wrapper
  /\ (0 <=? 2) = true
  /\ float_pow2 2 = Some 4
  /\ exists K l,
       compute_controllable_sets float_pow2 3 wrapper box_solve 2 2
       = Run (Ret K) l
       /\ length K = (3 + 1)%nat
       /\ K !! 3%nat = Some (Interval 4 4).
Proof.
  split; [exact scenario_well_formed|]. split; [reflexivity|].
  split; [reflexivity|].
  exact (C5_terminal_row_pinned float_pow2 3 wrapper box_solve 2
           scenario_well_formed eq_refl).
Defined.

Lemma C6_scenario :
  well_formed 3 wrapper
  /\ (exists X l,
        compute_feasible_sets LARGE 3 wrapper loose_solve = Run (Ret X) l
        /\ length X = (3 + 1)%nat
        /\ (forall i : nat, (i < 3 + 1)%nat ->
              exists row,
                X !! i = Some row
                /\ let raw := feasible_raw LARGE wrapper loose_solve i in
                   row = clamp_lo raw
                   /\ ((lo raw <? 0) = true -> row = Interval 0 (hi raw))
                   /\ ((lo raw <? 0) = false -> row = raw)
                   /\ (isnan_any row = false -> (0 <=? lo row) = true))
        /\ (forall (i : nat) k, X !! i = Some k -> isnan_any k = false ->
              (0 <=? lo k) = true))
  /\ ((0 <=? 0) && (0 <=? 0))%bool = true
  /\ float_pow2 0 = Some 0
  /\ (exists K l,
        compute_controllable_sets float_pow2 3 wrapper loose_solve 0 0
        = Run (Ret K) l
        /\ length K = (3 + 1)%nat
        /\ K !! 3%nat = Some (Interval 0 0)
        /\ (forall i : nat, (i < 3)%nat ->
              exists kn row,
                K !! (i + 1)%nat = Some kn /\ K !! i = Some row
                /\ let raw := one_step_value 3 wrapper loose_solve i kn in
                   outcome (_one_step 3 wrapper loose_solve i kn) = Ret raw
                   /\ row = clamp_lo raw
                   /\ ((lo raw <? 0) = true -> row = Interval 0 (hi raw))
                   /\ ((lo raw <? 0) = false -> row = raw)
                   /\ (isnan_any row = false -> (0 <=? lo row) = true))
        /\ ((is_nan 0 = false -> (0 <=? 0) = true) ->
            forall (i : nat) k, K !! i = Some k -> isnan_any k = false ->
              (0 <=? lo k) = true)).
Proof.
  destruct (C6_lower_bounds_nonnegative LARGE float_pow2 3 wrapper loose_solve
              scenario_well_formed) as [Hfeasible Hcontrollable].
  split; [exact scenario_well_formed|]. split; [exact Hfeasible|].
  split; [reflexivity|]. split; [reflexivity|].
  exact (Hcontrollable 0 0 0 0 eq_refl eq_refl eq_refl).
Defined.

Lemma C9_scenario :
  well_formed 3 wrapper
  /\ (exists X l,
        compute_feasible_sets LARGE 3 wrapper box_solve = Run (Ret X) l
        /\ bracketed false l = true /\ last l = Some CloseSolver)
  /\ (forall sdmin sdmax,
        compute_controllable_sets float_pow2 3 wrapper box_solve sdmin sdmax
        = Run (Raise AssertionError) []
        \/ compute_controllable_sets float_pow2 3 wrapper box_solve
             sdmin sdmax
           = Run (Raise OverflowError) []
        \/ exists K l,
             compute_controllable_sets float_pow2 3 wrapper box_solve
               sdmin sdmax
             = Run (Ret K) l
             /\ bracketed false l = true /\ last l = Some CloseSolver)
  /\ (forall sd_start sd_end,
        compute_parameterization SMALL float_pow2 3 wrapper box_solve
          box_forward sd_start sd_end = Run (Raise AssertionError) []
        \/ (exists l,
              compute_parameterization SMALL float_pow2 3 wrapper box_solve
                box_forward sd_start sd_end = Run (Raise OverflowError) l
              /\ bracketed false l = true
              /\ (l = [] \/ last l = Some CloseSolver))
        \/ exists r l,
             compute_parameterization SMALL float_pow2 3 wrapper box_solve
               box_forward sd_start sd_end = Run (Ret r) l
             /\ bracketed false l = true /\ last l = Some CloseSolver).
Proof.
  split; [exact scenario_well_formed|].
  exact (C9_stage_calls_inside_sessions LARGE SMALL float_pow2 3 wrapper
           box_solve box_forward scenario_well_formed).
Defined.

Lemma C10_scenario :
  well_formed 3 wrapper
  /\ (exists X l,
        compute_feasible_sets LARGE 3 wrapper box_solve = Run (Ret X) l
        /\ forall i : nat, (i < 3 + 1)%nat ->
             exists row,
               X !! i = Some row
               /\ row = clamp_lo (feasible_raw LARGE wrapper box_solve i)
               /\ isnan_any row
                  = isnan_any (feasible_raw LARGE wrapper box_solve i)
               /\ (is_nan (lo (feasible_raw LARGE wrapper box_solve i)) = true ->
                   row = feasible_raw LARGE wrapper box_solve i))
  /\ (forall sdmin sdmax x_min x_max,
        ((sdmin <=? sdmax) && (0 <=? sdmin))%bool = true ->
        float_pow2 sdmin = Some x_min -> float_pow2 sdmax = Some x_max ->
        exists K l,
          compute_controllable_sets float_pow2 3 wrapper box_solve sdmin sdmax
          = Run (Ret K) l
          /\ forall i : nat, (i < 3)%nat ->
               exists kn row,
                 K !! (i + 1)%nat = Some kn /\ K !! i = Some row
                 /\ outcome (_one_step 3 wrapper box_solve i kn)
                    = Ret (one_step_value 3 wrapper box_solve i kn)
                 /\ row = clamp_lo (one_step_value 3 wrapper box_solve i kn)
                 /\ isnan_any row
                    = isnan_any (one_step_value 3 wrapper box_solve i kn)
                 /\ (is_nan (lo (one_step_value 3 wrapper box_solve i kn)) = true ->
                     row = one_step_value 3 wrapper box_solve i kn)).
Proof.
  split; [exact scenario_well_formed|].
  exact (C10_clamp_keeps_empty_rows LARGE float_pow2 3 wrapper box_solve
           scenario_well_formed).
Defined.

End ScenarioFacts.

(** ** More about the three computations *)

Section CallFacts.

Context {Params : Type}.
Variable LARGE SMALL : float.
Variable pow2 : float -> option float.
Variable _N : nat.
Variable sw : @SolverWrapper Params.
Variable solve_opt : query -> optim_var.
Variable fwd : nat -> float -> interval -> forward_result.

Lemma flat_map_seq_S {A} (f : nat -> list A) (k : nat) :
  flat_map f (seq 0 (S k)) = flat_map f (seq 0 k) ++ f k.
Proof.
  rewrite seq_S, flat_map_app. simpl. now rewrite app_nil_r.
Qed.

Lemma same_run {A} (a b : A) (l l' : list event) :
  Run (Ret a) l = Run (Ret b) l' -> a = b /\ l = l'.
Proof. intros [= -> ->]. now split. Qed.

(** The loop of solves of [compute_feasible_sets], with its calls. *)
Lemma feasible_solve_calls (k i : nat) (X : list interval) (l : list event) :
  range (_N + 1) !! k = Some i ->
  length X = _N + 1 /\ l = flat_map (feasible_calls LARGE sw) (seq 0 k) ->
  exists X' l',
    (r ← solve solve_opt (feasible_query LARGE sw i (g_vec sw 1e-9 1)%float);
     X1 ← pure (set_lo X i (var_x r));
     r ← solve solve_opt
           (feasible_query LARGE sw i (map PrimFloat.opp (g_vec sw 1e-9 1)%float));
     pure (set_hi X1 i (var_x r)))
    = Run (Ret X') l'
    /\ length X' = _N + 1
    /\ l ++ l' = flat_map (feasible_calls LARGE sw) (seq 0 (S k)).
Proof.
  intros Hidx (Hlen & ->).
  apply range_lookup in Hidx as [-> Hk].
  destruct (lookup_lt_is_Some_2 X k) as [row Erow]; [lia|].
  eexists _, (feasible_calls LARGE sw k). split; [|split].
  - eapply (bind_Run _ _ [_] _ _ [_]); [reflexivity|].
    rewrite (set_lo_Some _ _ _ _ Erow), bind_pure_Ret.
    eapply bind_Run_nil; [reflexivity|].
    erewrite set_hi_Some by (apply list_lookup_insert_eq; lia).
    reflexivity.
  - now rewrite !length_insert.
  - now rewrite flat_map_seq_S.
Qed.

Lemma log_bind_Ret {A B} (m : M A) (a : A) (l : list event) (f : A -> M B) :
  m = Run (Ret a) l -> log (m ≫= f) = l ++ log (f a).
Proof. now intros ->. Qed.

(** The clamping loops make no call. *)
Lemma clamp_loop_silent (idx : list nat) (X : list interval) :
  log (for_each idx (fun i X =>
         row ← pure (getitem X i);
         if (lo row <? 0)%float then pure (set_lo X i 0%float) else mret X) X)
  = [].
Proof.
  revert X. induction idx as [|i idx IH]; intros X; [reflexivity|].
  cbn [for_each].
  destruct (getitem X i) as [e|row] eqn:Erow; [reflexivity|].
  rewrite bind_pure_Ret.
  destruct (lo row <? 0)%float.
  - destruct (set_lo X i 0%float) as [e|X'] eqn:Eset; [reflexivity|].
    rewrite bind_pure_Ret. apply IH.
  - change (mret X ≫= ?f) with (pure (Ret X) ≫= f).
    rewrite bind_pure_Ret. apply IH.
Qed.

(** X1.  [compute_feasible_sets] makes the same calls whatever the solver
    answers: after [setup_solver], for each stage [0 .. N] in turn the
    minimizing and then the maximizing solve, both with the zero matrix and
    the bounds [-LARGE] and [LARGE] on [x] and on the next [x]; then
    [close_solver].  That is [2 (N + 1)] solves, and the array returned has
    [N + 1] rows. *)
Theorem X1_feasible_sweep_calls :
  well_formed _N sw ->
  exists X,
    compute_feasible_sets LARGE _N sw solve_opt
    = Run (Ret X)
          (SetupSolver
             :: flat_map (feasible_calls LARGE sw) (range (_N + 1))
             ++ [CloseSolver])
    /\ length X = _N + 1
    /\ length (filter (fun e => is_solve e = true)
                 (log (compute_feasible_sets LARGE _N sw solve_opt)))
       = 2 * (_N + 1).
Proof.
  intros Hwf.
  destruct (feasible_sets_run LARGE _N sw solve_opt Hwf)
    as (X & l & E & Hlen & _ & _).
  pose proof Hwf as (HN & Hd & HnV).
  assert (El : l = flat_map (feasible_calls LARGE sw) (range (_N + 1))).
  { pose proof (f_equal log E) as Hlog. simpl in Hlog.
    unfold compute_feasible_sets in Hlog. cbv zeta in Hlog.
    rewrite g_vec_run in Hlog by assumption.
    rewrite (log_bind_Ret setup_solver tt [SetupSolver]) in Hlog
      by reflexivity.
    cbv beta in Hlog.
    match type of Hlog with
    | context [for_each ?idx ?body ?s0 ≫= _] =>
        destruct (for_each_invariant
                    (fun k X l =>
                       length X = _N + 1
                       /\ l = flat_map (feasible_calls LARGE sw) (seq 0 k))
                    idx body feasible_solve_calls s0 [])
          as (X1 & l1 & Eloop1 & Hlen1 & El1)
    end.
    { split; [now rewrite length_replicate|reflexivity]. }
    rewrite range_length in El1. simpl in El1.
    rewrite (log_bind_Ret _ _ _ _ Eloop1) in Hlog.
    rewrite (log_bind_Ret close_solver tt [CloseSolver]) in Hlog
      by reflexivity.
    rewrite clamp_loop_silent in Hlog.
    simpl in Hlog. injection Hlog as Hlog.
    apply app_inv_tail in Hlog. now subst l1. }
  subst l. exists X. split; [exact E|]. split; [exact Hlen|].
  rewrite E. simpl log.
  assert (Hcount : forall n,
             length (filter (fun e => is_solve e = true)
                       (flat_map (feasible_calls LARGE sw) (seq 0 n)))
             = 2 * n).
  { induction n as [|n IH]; [reflexivity|].
    rewrite flat_map_seq_S, filter_app, length_app, IH. simpl. lia. }
  rewrite filter_cons_False by (simpl; discriminate).
  rewrite filter_app, length_app. unfold range. rewrite Hcount.
  simpl. lia.
Qed.

Lemma flat_map_ext_lookup {A B} (f g : A -> list B) (l : list A) :
  (forall n a, l !! n = Some a -> f a = g a) ->
  flat_map f l = flat_map g l.
Proof.
  induction l as [|a l IH]; intros H; [reflexivity|].
  simpl. rewrite (H 0 a eq_refl). f_equal.
  apply IH. intros n b Hb. exact (H (S n) b Hb).
Qed.

(** One iteration of the backward loop, with its result and calls. *)
Lemma backward_body_run (K : list interval) (i : nat) (kn : interval) :
  2 <= nV sw -> i < length K -> K !! (i + 1) = Some kn ->
  (K_next ← pure (getitem K (i + 1));
   res ← _one_step _N sw solve_opt i K_next;
   K1 ← pure (setitem K i res);
   row ← pure (getitem K1 i);
   if (lo row <? 0)%float then pure (set_lo K1 i 0%float) else mret K1)
  = Run (Ret (<[i:=clamp_lo (one_step_value _N sw solve_opt i kn)]> K))
        (one_step_log _N sw i kn).
Proof.
  intros HnV Hi Ekn.
  rewrite (getitem_Some _ _ _ Ekn), bind_pure_Ret.
  rewrite one_step_run by assumption.
  eapply bind_Run_nil; [reflexivity|].
  rewrite setitem_lt by lia. rewrite bind_pure_Ret.
  now apply clamp_insert.
Qed.

Lemma backward_calls_step (k i : nat) (K : list interval) (l : list event) :
  2 <= nV sw ->
  range_down _N !! k = Some i ->
  length K = _N + 1
  /\ l = flat_map (backward_calls _N sw K) (take k (range_down _N)) ->
  exists K' l',
    (K_next ← pure (getitem K (i + 1));
     res ← _one_step _N sw solve_opt i K_next;
     K1 ← pure (setitem K i res);
     row ← pure (getitem K1 i);
     if (lo row <? 0)%float then pure (set_lo K1 i 0%float) else mret K1)
    = Run (Ret K') l'
    /\ length K' = _N + 1
    /\ l ++ l'
       = flat_map (backward_calls _N sw K') (take (S k) (range_down _N)).
Proof.
  intros HnV Hidx (Hlen & ->).
  pose proof Hidx as Hidx'.
  apply range_down_lookup in Hidx' as [Ei Hk].
  destruct (lookup_lt_is_Some_2 K (i + 1)) as [kn Ekn]; [lia|].
  eexists _, _. split; [|split].
  - apply (backward_body_run K i kn); [assumption|lia|assumption].
  - now rewrite length_insert.
  - rewrite (take_S_r _ _ _ Hidx), flat_map_app. simpl.
    rewrite app_nil_r. f_equal.
    + apply flat_map_ext_lookup. intros n j Hj.
      apply lookup_take_Some in Hj as [Hj Hn].
      apply range_down_lookup in Hj as [-> _].
      unfold backward_calls.
      now rewrite list_lookup_insert_ne by lia.
    + unfold backward_calls.
      rewrite list_lookup_insert_ne by lia. now rewrite Ekn.
Qed.

Lemma one_step_log_length (i : nat) (kn : interval) :
  length (filter (fun e => is_solve e = true) (one_step_log _N sw i kn))
  = if isnan_any kn || (_N <? i) then 0 else 2.
Proof.
  unfold one_step_log. now destruct (isnan_any kn || (_N <? i)).
Qed.

(** X2.  [compute_controllable_sets], when its assertion holds and the two
    powers are computed, visits the
    stages [N - 1] down to [0]; at stage [i] it makes the two solves of
    [_one_step] (the maximizing one first) with the bounds of row [i + 1] on
    the next [x], and none when that row holds a NaN.  So it makes at most
    [2 N] solves, and exactly [2 N] when the array returned holds no NaN. *)
Theorem X2_backward_pass_calls (sdmin sdmax x_min x_max : float) :
  well_formed _N sw ->
  ((sdmin <=? sdmax) && (0 <=? sdmin))%float = true ->
  pow2 sdmin = Some x_min -> pow2 sdmax = Some x_max ->
  exists K,
    compute_controllable_sets pow2 _N sw solve_opt sdmin sdmax
    = Run (Ret K)
          (SetupSolver
             :: flat_map (backward_calls _N sw K) (range_down _N)
             ++ [CloseSolver])
    /\ length (filter (fun e => is_solve e = true)
                 (log (compute_controllable_sets pow2 _N sw solve_opt sdmin sdmax)))
       <= 2 * _N
    /\ (isnan_any_rows K = false ->
        length (filter (fun e => is_solve e = true)
                  (log (compute_controllable_sets pow2 _N sw solve_opt sdmin sdmax)))
        = 2 * _N).
Proof.
  intros (HN & Hd & HnV) Hassert Hmin Hmax.
  assert (Hrun : exists K,
             compute_controllable_sets pow2 _N sw solve_opt sdmin sdmax
             = Run (Ret K)
                   (SetupSolver
                      :: flat_map (backward_calls _N sw K) (range_down _N)
                      ++ [CloseSolver])
             /\ length K = _N + 1).
  { unfold compute_controllable_sets, py_pow2. rewrite Hassert. simpl assert.
    rewrite bind_pure_Ret, Hmin, bind_pure_Ret, Hmax, bind_pure_Ret.
    rewrite setitem_lt by (rewrite length_replicate; lia).
    rewrite bind_pure_Ret.
    match goal with
    | |- context [for_each ?idx ?body ?s0] =>
        destruct (for_each_invariant
                    (fun k K l =>
                       length K = _N + 1
                       /\ l = flat_map (backward_calls _N sw K)
                                (take k (range_down _N)))
                    idx body
                    (fun k i s l => backward_calls_step k i s l HnV) s0 [])
          as (K & l & Eloop & Hlen & El)
    end.
    { split; [now rewrite length_insert, length_replicate|reflexivity]. }
    rewrite range_down_length in El. simpl in El.
    rewrite take_ge in El by (rewrite range_down_length; lia).
    subst l. exists K. split; [|exact Hlen].
    change (SetupSolver :: ?l ++ [CloseSolver])
      with ([SetupSolver] ++ l ++ [CloseSolver]).
    eapply bind_Run; [reflexivity|].
    eapply bind_Run; [exact Eloop|].
    destruct (lookup_lt_is_Some_2 K 0) as [K0 E0]; [lia|].
    rewrite (getitem_Some _ _ _ E0), bind_pure_Ret.
    reflexivity. }
  destruct Hrun as (K & E & Hlen).
  exists K. split; [exact E|].
  rewrite E. simpl log.
  rewrite filter_cons_False by (simpl; discriminate).
  rewrite filter_app, length_app.
  change (length (filter _ [CloseSolver])) with 0. rewrite Nat.add_0_r.
  assert (Hcount : forall idx : list nat,
             (forall n i, idx !! n = Some i -> i < _N) ->
             length (filter (fun e => is_solve e = true)
                       (flat_map (backward_calls _N sw K) idx))
             <= 2 * length idx
             /\ (isnan_any_rows K = false ->
                 length (filter (fun e => is_solve e = true)
                           (flat_map (backward_calls _N sw K) idx))
                 = 2 * length idx)).
  { induction idx as [|i idx IH]; intros Hidx.
    - split; [simpl; lia|reflexivity].
    - destruct (IH (fun n j Hj => Hidx (S n) j Hj)) as [IH1 IH2].
      pose proof (Hidx 0 i eq_refl) as Hi.
      simpl flat_map. rewrite filter_app, length_app.
      unfold backward_calls at 1 3.
      destruct (lookup_lt_is_Some_2 K (i + 1)) as [kn Ekn]; [lia|].
      rewrite Ekn, one_step_log_length.
      destruct (Nat.ltb_spec _N i) as [Hlt|_]; [lia|].
      rewrite orb_false_r. split.
      + destruct (isnan_any kn); simpl length; lia.
      + intros Hnan. rewrite (isnan_any_rows_false K _ _ Hnan Ekn).
        rewrite (IH2 Hnan). simpl length. lia. }
  destruct (Hcount (range_down _N)) as [H1 H2].
  { intros n i Hi. apply range_down_lookup in Hi. lia. }
  rewrite range_down_length in H1, H2. now split.
Qed.

(** *** The forward pass, stage by stage *)

Lemma forward_body_run (K : list interval) (p : profile) (i : nat)
    (x : float) (kn : interval) (d : float) :
  i < length (p_us p) -> i + 1 < length (p_xs p) -> i < length (p_v_vec p) ->
  p_xs p !! i = Some x -> K !! (i + 1) = Some kn -> deltas sw !! i = Some d ->
  (x ← pure (getitem (p_xs p) i);
   K_next ← pure (getitem K (i + 1));
   optim_res ← forward_step fwd i x K_next;
   match optim_res with
   | FirstIsNone =>
       us ← pure (setitem (p_us p) i nan);
       xs ← pure (setitem (p_xs p) (i + 1) nan);
       v_vec ← pure (setitem (p_v_vec p) i
                       (replicate (get_no_vars sw - 2) nan));
       mret (Profile us xs v_vec)
   | Optimal r =>
       us ← pure (setitem (p_us p) i (var_u r));
       delta ← pure (getitem (get_deltas sw) i);
       u ← pure (getitem us i);
       xs ← pure (setitem (p_xs p) (i + 1)
                    (py_min (hi K_next)
                       (py_max (lo K_next) (x + 2 * delta * u)))%float);
       v_vec ← pure (setitem (p_v_vec p) i (var_v r));
       mret (Profile us xs v_vec)
   end)
  = Run (Ret (match fwd i x kn with
              | FirstIsNone =>
                  Profile (<[i:=nan]> (p_us p)) (<[i + 1:=nan]> (p_xs p))
                          (<[i:=replicate (get_no_vars sw - 2) nan]> (p_v_vec p))
              | Optimal r =>
                  Profile (<[i:=var_u r]> (p_us p))
                          (<[i + 1:=(py_min (hi kn)
                                       (py_max (lo kn) (x + 2 * d * var_u r)))%float]>
                             (p_xs p))
                          (<[i:=var_v r]> (p_v_vec p))
              end))
        [ForwardStep i x kn].
Proof.
  intros Hus Hxs Hvv Ex Ekn Ed.
  rewrite (getitem_Some _ _ _ Ex), bind_pure_Ret.
  rewrite (getitem_Some _ _ _ Ekn), bind_pure_Ret.
  eapply bind_Run_nil; [reflexivity|].
  destruct (fwd i x kn) as [|r].
  - rewrite !setitem_lt by lia. now rewrite !bind_pure_Ret.
  - rewrite (setitem_lt (p_us p)) by lia. rewrite bind_pure_Ret.
    unfold get_deltas. rewrite (getitem_Some _ _ _ Ed), bind_pure_Ret.
    rewrite (getitem_Some _ _ (var_u r))
      by (apply list_lookup_insert_eq; lia).
    rewrite bind_pure_Ret.
    rewrite !setitem_lt by lia. now rewrite !bind_pure_Ret.
Qed.

Lemma forward_calls_step (K : list interval) (k i : nat) (p : profile)
    (l : list event) :
  well_formed _N sw -> length K = _N + 1 ->
  range _N !! k = Some i ->
  (length (p_xs p) = _N + 1 /\ length (p_us p) = _N
   /\ length (p_v_vec p) = _N)
  /\ l = flat_map (forward_calls K (p_xs p)) (seq 0 k) ->
  exists p' l',
    (x ← pure (getitem (p_xs p) i);
     K_next ← pure (getitem K (i + 1));
     optim_res ← forward_step fwd i x K_next;
     match optim_res with
     | FirstIsNone =>
         us ← pure (setitem (p_us p) i nan);
         xs ← pure (setitem (p_xs p) (i + 1) nan);
         v_vec ← pure (setitem (p_v_vec p) i
                         (replicate (get_no_vars sw - 2) nan));
         mret (Profile us xs v_vec)
     | Optimal r =>
         us ← pure (setitem (p_us p) i (var_u r));
         delta ← pure (getitem (get_deltas sw) i);
         u ← pure (getitem us i);
         xs ← pure (setitem (p_xs p) (i + 1)
                      (py_min (hi K_next)
                         (py_max (lo K_next) (x + 2 * delta * u)))%float);
         v_vec ← pure (setitem (p_v_vec p) i (var_v r));
         mret (Profile us xs v_vec)
     end)
    = Run (Ret p') l'
    /\ ((length (p_xs p') = _N + 1 /\ length (p_us p') = _N
         /\ length (p_v_vec p') = _N)
        /\ l ++ l' = flat_map (forward_calls K (p_xs p')) (seq 0 (S k))).
Proof.
  intros (HN & Hd & HnV) HK Hidx ((Hxs & Hus & Hvv) & ->).
  apply range_lookup in Hidx as [-> Hk].
  destruct (lookup_lt_is_Some_2 (p_xs p) k) as [x Ex]; [lia|].
  destruct (lookup_lt_is_Some_2 K (k + 1)) as [kn Ekn]; [lia|].
  destruct (lookup_lt_is_Some_2 (deltas sw) k) as [d Ed]; [lia|].
  eexists _, _. split.
  - apply (forward_body_run K p k x kn d); (lia || assumption).
  - assert (Hcalls : forall xs' : list float,
               (forall n, n <= k -> xs' !! n = p_xs p !! n) ->
               flat_map (forward_calls K (p_xs p)) (seq 0 k)
               ++ [ForwardStep k x kn]
               = flat_map (forward_calls K xs') (seq 0 (S k))).
    { intros xs' Hsame. rewrite flat_map_seq_S. f_equal.
      - apply flat_map_ext_lookup. intros n j Hj.
        apply lookup_seq in Hj as [-> Hn]. simpl.
        unfold forward_calls. now rewrite Hsame by lia.
      - unfold forward_calls. rewrite Hsame by lia. now rewrite Ex, Ekn. }
    destruct (fwd k x kn) as [|r]; simpl; rewrite !length_insert.
    + split; [auto|]. apply Hcalls. intros n Hn.
      apply list_lookup_insert_ne. lia.
    + split; [auto|]. apply Hcalls. intros n Hn.
      apply list_lookup_insert_ne. lia.
Qed.

(** The forward pass, with its calls. *)
Lemma forward_pass_calls (K : list interval) (x_start : float) :
  well_formed _N sw -> length K = _N + 1 ->
  exists p,
    forward_pass _N sw fwd K x_start
    = Run (Ret p)
          (SetupSolver
             :: flat_map (forward_calls K (p_xs p)) (range _N)
             ++ [CloseSolver]).
Proof.
  intros Hwf HK. pose proof Hwf as (HN & Hd & HnV).
  unfold forward_pass. cbv zeta. unfold get_no_stages.
  rewrite setitem_lt by (rewrite length_replicate; lia).
  rewrite bind_pure_Ret.
  match goal with
  | |- context [for_each ?idx ?body ?s0 ≫= _] =>
      destruct (for_each_invariant
                  (fun k p l =>
                     (length (p_xs p) = _N + 1 /\ length (p_us p) = _N
                      /\ length (p_v_vec p) = _N)
                     /\ l = flat_map (forward_calls K (p_xs p)) (seq 0 k))
                  idx body
                  (fun k i s l => forward_calls_step K k i s l Hwf HK) s0 [])
        as (p & l & Eloop & _ & El)
  end.
  { simpl. rewrite length_insert, !length_replicate. repeat split; lia. }
  rewrite range_length in El. simpl in El. subst l.
  exists p.
  change (SetupSolver :: ?l ++ [CloseSolver])
    with ([SetupSolver] ++ l ++ [CloseSolver]).
  eapply bind_Run; [reflexivity|].
  eapply bind_Run; [exact Eloop|].
  reflexivity.
Qed.

(** What is known when [compute_parameterization] returns arrays. *)
Lemma parameterization_arrays (sd_start sd_end : float)
    (arrays : list float * list float * list (list float)) :
  well_formed _N sw ->
  outcome (compute_parameterization SMALL pow2 _N sw solve_opt fwd sd_start sd_end)
  = Ret (Some arrays) ->
  exists x_start K lb p lf,
    pow2 sd_start = Some x_start
    /\ compute_controllable_sets pow2 _N sw solve_opt sd_end sd_end
       = Run (Ret K) (SetupSolver :: lb ++ [CloseSolver])
    /\ Forall (fun e => is_solve e = true) lb
    /\ length K = _N + 1
    /\ isnan_any_rows K = false
    /\ forward_pass _N sw fwd K x_start
       = Run (Ret p) (SetupSolver :: lf ++ [CloseSolver])
    /\ forward_inv sw fwd K x_start _N p lf
    /\ arrays = (p_us p, map PrimFloat.sqrt (p_xs p), p_v_vec p)
    /\ log (compute_parameterization SMALL pow2 _N sw solve_opt fwd sd_start sd_end)
       = (SetupSolver :: lb ++ [CloseSolver])
         ++ SetupSolver :: lf ++ [CloseSolver].
Proof.
  intros Hwf Hret.
  destruct ((0 <=? sd_end) && (0 <=? sd_start))%float eqn:Hassert.
  2:{ rewrite (parameterization_assert _ _ _ _ _ _ _ _ Hassert) in Hret.
      discriminate. }
  destruct (pow2 sd_end) as [x_end|] eqn:Hend.
  2:{ rewrite (parameterization_overflow _ _ _ _ _ _ _ _ Hassert Hend) in Hret.
      discriminate. }
  destruct (parameterization_run SMALL pow2 _N sw solve_opt fwd sd_start sd_end
              x_end Hwf Hassert Hend)
    as (K & lb & K0 & Eb & HInv & E0 & Hcase).
  destruct (isnan_any_rows K) eqn:Enan.
  { rewrite Hcase in Hret. discriminate. }
  destruct (pow2 sd_start) as [x_start|].
  2:{ rewrite Hcase in Hret. discriminate. }
  destruct ((x_start + SMALL <? lo K0) || (hi K0 + SMALL <? x_start))%float.
  { rewrite Hcase in Hret. discriminate. }
  destruct Hcase as (p & lf & Ep & Ef & HF).
  rewrite Ep in Hret. simpl in Hret. injection Hret as <-.
  destruct HInv as (Hlen & _ & _ & _ & Hsolve).
  exists x_start, K, lb, p, lf. rewrite Ep. simpl. auto 10.
Qed.

Lemma filter_none (P : event -> bool) (l : list event) :
  Forall (fun e => P e = false) l ->
  filter (fun e => P e = true) l = [].
Proof.
  induction 1 as [|e l He _ IH]; [reflexivity|].
  rewrite filter_cons_False by (rewrite He; discriminate). exact IH.
Qed.

Lemma forward_steps_of_log (lb lf : list event) :
  Forall (fun e => is_solve e = true) lb ->
  Forall (fun e => is_forward e = true) lf ->
  filter (fun e => is_forward e = true)
    ((SetupSolver :: lb ++ [CloseSolver]) ++ SetupSolver :: lf ++ [CloseSolver])
  = lf.
Proof.
  intros Hb Hf.
  assert (Hall : filter (fun e => is_forward e = true) lf = lf).
  { induction Hf as [|e l He _ IH]; [reflexivity|].
    rewrite filter_cons_True by exact He. now rewrite IH. }
  rewrite filter_app.
  rewrite (filter_cons_False _ SetupSolver) by (simpl; discriminate).
  rewrite filter_app, (filter_none is_forward lb)
    by (apply is_solve_not_forward; exact Hb).
  rewrite (filter_cons_False _ CloseSolver) by (simpl; discriminate).
  rewrite filter_nil.
  rewrite (filter_cons_False _ SetupSolver) by (simpl; discriminate).
  rewrite filter_app, Hall.
  rewrite (filter_cons_False _ CloseSolver) by (simpl; discriminate).
  rewrite filter_nil. simpl. apply app_nil_r.
Qed.

(** X3.  When [compute_parameterization] returns arrays, its calls are those
    of the backward pass followed by one session in which [_forward_step] is
    called once per stage, for [i = 0 .. N - 1] in turn, with the stored
    [xs[i]] and row [K[i + 1]]; this holds whatever the earlier steps
    returned, so there are exactly [N] forward steps. *)
Theorem X3_forward_pass_calls (sd_start sd_end : float)
    (arrays : list float * list float * list (list float)) :
  well_formed _N sw ->
  outcome (compute_parameterization SMALL pow2 _N sw solve_opt fwd sd_start sd_end)
  = Ret (Some arrays) ->
  exists x_start K p,
    pow2 sd_start = Some x_start
    /\ outcome (compute_controllable_sets pow2 _N sw solve_opt sd_end sd_end)
       = Ret K
    /\ outcome (forward_pass _N sw fwd K x_start) = Ret p
    /\ log (compute_parameterization SMALL pow2 _N sw solve_opt fwd sd_start sd_end)
       = log (compute_controllable_sets pow2 _N sw solve_opt sd_end sd_end)
         ++ SetupSolver
            :: flat_map (forward_calls K (p_xs p)) (range _N)
            ++ [CloseSolver]
    /\ length (filter (fun e => is_forward e = true)
                 (log (compute_parameterization SMALL pow2 _N sw solve_opt fwd
                         sd_start sd_end)))
       = _N.
Proof.
  intros Hwf Hret.
  destruct (parameterization_arrays sd_start sd_end arrays Hwf Hret)
    as (x_start & K & lb & p & lf & Hstart & Eb & Hsolve & HK & _ & Ef & HF
        & _ & Elog).
  destruct (forward_pass_calls K x_start Hwf HK) as (p' & Ef').
  rewrite Ef in Ef'. apply same_run in Ef' as [<- Elf].
  injection Elf as Elf. apply app_inv_tail in Elf. subst lf.
  exists x_start, K, p. rewrite Eb, Ef, Elog. simpl outcome. simpl log.
  repeat split; [exact Hstart|].
  destruct HF as (_ & _ & _ & _ & _ & Hfwd & Hlen).
  rewrite (forward_steps_of_log lb _ Hsolve Hfwd). exact Hlen.
Qed.

(** *** The arrays returned *)

(** A square root is NaN or at least zero. *)
Lemma sqrt_nonneg (x : float) :
  is_nan (PrimFloat.sqrt x) = false -> (0 <=? PrimFloat.sqrt x)%float = true.
Proof.
  rewrite not_nan_Prim2SF, FloatAxioms.leb_spec, FloatAxioms.sqrt_spec,
    Prim2SF_zero.
  unfold SF64sqrt, SFsqrt, SFleb.
  destruct (Prim2SF x) as [[]|[]| |[] m e]; simpl; try congruence.
  destruct (SFsqrt_core_binary prec emax (Z.pos m) e) as [[mz ez] lz].
  intros Hnan.
  destruct (binary_round_aux_sign false mz ez lz)
    as [H|[H|[H|(m' & e' & H)]]]; simpl in H; rewrite H in *; simpl;
    congruence.
Qed.

(** [min(hi, max(lo, y))] never exceeds [hi]; it lies between the two bounds
    or is [hi] itself. *)
Lemma py_min_max_cases (l h y : float) :
  is_nan l = false -> is_nan h = false ->
  (py_min h (py_max l y) <=? h)%float = true
  /\ (within (py_min h (py_max l y)) (Interval l h) = true
      \/ py_min h (py_max l y) = h).
Proof.
  intros Hl Hh. unfold within, py_min, py_max. simpl.
  destruct (l <? y)%float eqn:E1.
  - destruct (y <? h)%float eqn:E2.
    + rewrite (ltb_leb _ _ E1), (ltb_leb _ _ E2). auto.
    + rewrite (leb_refl _ Hh). auto.
  - destruct (l <? h)%float eqn:E2.
    + rewrite (leb_refl _ Hl), (ltb_leb _ _ E2). auto.
    + rewrite (leb_refl _ Hh). auto.
Qed.

Lemma isnan_any_false (k : interval) :
  isnan_any k = false -> is_nan (lo k) = false /\ is_nan (hi k) = false.
Proof. unfold isnan_any. apply orb_false_elim. Qed.

(** X4.  The arrays [compute_parameterization] returns have [N], [N + 1] and
    [N] entries ([sdd_vec], [sd_vec], [v_vec]), the first velocity is the
    square root of the value of [sd_start ** 2], and every velocity is NaN or
    at least zero. *)
Theorem X4_profile_shape (sd_start sd_end : float)
    (sdd_vec sd_vec : list float) (v_vec : list (list float)) :
  well_formed _N sw ->
  outcome (compute_parameterization SMALL pow2 _N sw solve_opt fwd sd_start sd_end)
  = Ret (Some (sdd_vec, sd_vec, v_vec)) ->
  length sdd_vec = _N
  /\ length sd_vec = _N + 1
  /\ length v_vec = _N
  /\ (exists x_start,
        pow2 sd_start = Some x_start
        /\ sd_vec !! 0 = Some (PrimFloat.sqrt x_start))
  /\ forall i v, sd_vec !! i = Some v ->
       is_nan v = true \/ (0 <=? v)%float = true.
Proof.
  intros Hwf Hret. pose proof Hwf as (HN & _).
  destruct (parameterization_arrays sd_start sd_end _ Hwf Hret)
    as (x_start & K & lb & p & lf & Hstart & _ & _ & _ & _ & _ & HF & Earr
        & _).
  injection Earr as -> -> ->.
  destruct HF as (Hxs & Hus & Hvv & H0 & _).
  rewrite length_map.
  split; [lia|]. split; [lia|]. split; [lia|]. split.
  - exists x_start. split; [exact Hstart|].
    now rewrite list_lookup_fmap, H0.
  - intros i v Ev. rewrite list_lookup_fmap in Ev.
    destruct (p_xs p !! i) as [x|]; [|discriminate].
    injection Ev as <-.
    destruct (is_nan (PrimFloat.sqrt x)) eqn:E; [now left|].
    right. now apply sqrt_nonneg.
Qed.

(** X5.  When [compute_parameterization] returns arrays, every squared
    velocity [xs[i]] with [i >= 1] that a forward step produced is at most
    [K[i, 1]]: it lies between [K[i, 0]] and [K[i, 1]] or equals [K[i, 1]],
    whatever the order of the two bounds.  The only other value is the NaN
    stored when the forward step answered [None]. *)
Theorem X5_profile_below_upper_bound (sd_start sd_end : float)
    (arrays : list float * list float * list (list float)) :
  well_formed _N sw ->
  outcome (compute_parameterization SMALL pow2 _N sw solve_opt fwd sd_start sd_end)
  = Ret (Some arrays) ->
  exists x_start K p,
    pow2 sd_start = Some x_start
    /\ outcome (compute_controllable_sets pow2 _N sw solve_opt sd_end sd_end)
       = Ret K
    /\ outcome (forward_pass _N sw fwd K x_start) = Ret p
    /\ arrays = (p_us p, map PrimFloat.sqrt (p_xs p), p_v_vec p)
    /\ forall i x k,
         p_xs p !! (i + 1) = Some x -> K !! (i + 1) = Some k ->
         (is_nan x = true
          /\ exists x', p_xs p !! i = Some x' /\ fwd i x' k = FirstIsNone)
         \/ ((x <=? hi k)%float = true
             /\ (within x k = true \/ x = hi k)).
Proof.
  intros Hwf Hret. pose proof Hwf as (HN & _).
  destruct (parameterization_arrays sd_start sd_end _ Hwf Hret)
    as (x_start & K & lb & p & lf & Hstart & Eb & _ & HK & Hnan & Ef & HF
        & Earr & _).
  exists x_start, K, p. rewrite Eb, Ef. repeat split; try assumption.
  intros i x k Ex Ek.
  destruct HF as (Hxs & _ & _ & _ & Hst & _).
  assert (Hi : i < _N) by (apply lookup_lt_Some in Ex; lia).
  destruct (Hst i Hi) as (x' & kn & d & Ex' & Ekn & Ed & Hres).
  rewrite Ek in Ekn. injection Ekn as <-.
  destruct (fwd i x' k) as [|r] eqn:Efwd.
  - left. destruct Hres as (_ & Ex2 & _).
    rewrite Ex in Ex2. injection Ex2 as ->. split; [reflexivity|].
    now exists x'.
  - right. destruct Hres as (_ & Ex2 & _).
    rewrite Ex in Ex2. injection Ex2 as ->.
    destruct (isnan_any_false k (isnan_any_rows_false K _ _ Hnan Ek))
      as [Hlo Hhi].
    destruct k as [l h]. now apply py_min_max_cases.
Qed.

(** X6.  A forward step that hands back an array whose control entry is NaN
    (what a failed solve returns) is not treated as a failure: [us[i]] gets
    that NaN, while [xs[i + 1]] gets the number [K[i + 1, 0]] (or
    [K[i + 1, 1]] when the bounds are not strictly ordered), so the returned
    [sd_vec[i + 1]] is its square root. *)
Theorem X6_nan_control_stores_bound (sd_start sd_end : float)
    (sdd_vec sd_vec : list float) (v_vec : list (list float)) :
  well_formed _N sw ->
  outcome (compute_parameterization SMALL pow2 _N sw solve_opt fwd sd_start sd_end)
  = Ret (Some (sdd_vec, sd_vec, v_vec)) ->
  exists x_start K p,
    pow2 sd_start = Some x_start
    /\ outcome (compute_controllable_sets pow2 _N sw solve_opt sd_end sd_end)
       = Ret K
    /\ outcome (forward_pass _N sw fwd K x_start) = Ret p
    /\ forall i x k r,
         i < _N -> p_xs p !! i = Some x -> K !! (i + 1) = Some k ->
         fwd i x k = Optimal r -> is_nan (var_u r) = true ->
         let bound := if (lo k <? hi k)%float then lo k else hi k in
         sdd_vec !! i = Some (var_u r)
         /\ p_xs p !! (i + 1) = Some bound
         /\ is_nan bound = false
         /\ sd_vec !! (i + 1) = Some (PrimFloat.sqrt bound).
Proof.
  intros Hwf Hret.
  destruct (parameterization_arrays sd_start sd_end _ Hwf Hret)
    as (x_start & K & lb & p & lf & Hstart & Eb & _ & HK & Hnan & Ef & HF
        & Earr & _).
  injection Earr as -> -> ->.
  exists x_start, K, p. rewrite Eb, Ef.
  split; [exact Hstart|]. split; [reflexivity|]. split; [reflexivity|].
  intros i x k r Hi Ex Ek Efwd Hu. cbv zeta.
  destruct (nan_control_stores_bound _N sw fwd K _ p lf i x k r
              HF Hi Ex Ek Efwd Hu) as [H1 H2].
  destruct (isnan_any_false k (isnan_any_rows_false K _ _ Hnan Ek))
    as [Hlo Hhi].
  split; [exact H1|]. split; [exact H2|]. split.
  - now destruct (lo k <? hi k)%float.
  - now rewrite list_lookup_fmap, H2.
Qed.

(** X7.  A forward step that answers [None] in its first entry leaves NaN in
    [us[i]] and [xs[i + 1]] and a row of [nV - 2] NaN in [v_vec[i]]; the
    returned [sd_vec[i + 1]] is NaN. *)
Theorem X7_none_marks_stage (sd_start sd_end : float)
    (sdd_vec sd_vec : list float) (v_vec : list (list float)) :
  well_formed _N sw ->
  outcome (compute_parameterization SMALL pow2 _N sw solve_opt fwd sd_start sd_end)
  = Ret (Some (sdd_vec, sd_vec, v_vec)) ->
  exists x_start K p,
    pow2 sd_start = Some x_start
    /\ outcome (compute_controllable_sets pow2 _N sw solve_opt sd_end sd_end)
       = Ret K
    /\ outcome (forward_pass _N sw fwd K x_start) = Ret p
    /\ forall i x k,
         i < _N -> p_xs p !! i = Some x -> K !! (i + 1) = Some k ->
         fwd i x k = FirstIsNone ->
         sdd_vec !! i = Some nan
         /\ p_xs p !! (i + 1) = Some nan
         /\ sd_vec !! (i + 1) = Some nan
         /\ v_vec !! i = Some (replicate (get_no_vars sw - 2) nan).
Proof.
  intros Hwf Hret.
  destruct (parameterization_arrays sd_start sd_end _ Hwf Hret)
    as (x_start & K & lb & p & lf & Hstart & Eb & _ & HK & Hnan & Ef & HF
        & Earr & _).
  injection Earr as -> -> ->.
  exists x_start, K, p. rewrite Eb, Ef.
  split; [exact Hstart|]. split; [reflexivity|]. split; [reflexivity|].
  intros i x k Hi Ex Ek Efwd.
  destruct HF as (_ & _ & _ & _ & Hst & _).
  destruct (Hst i Hi) as (x' & kn & d & Ex' & Ekn & Ed & Hres).
  rewrite Ex in Ex'. injection Ex' as <-.
  rewrite Ek in Ekn. injection Ekn as <-.
  rewrite Efwd in Hres. destruct Hres as (Hu & Hx & Hv).
  rewrite list_lookup_fmap, Hx. auto.
Qed.

(** *** Inputs refused, and the path of a single point *)

(** X8.  What the two entry points raise.  [compute_parameterization] raises
    the [AssertionError] of its first line exactly when [sd_end] or
    [sd_start] is negative or NaN, and then before any call; the assertion of
    [compute_controllable_sets] never fails inside it.  Past the assertion
    the only exception is the [OverflowError] of a power: of [sd_end ** 2],
    before any call, or of [sd_start ** 2], after the backward pass and only
    when the controllable sets hold no NaN.  In every other case a value is
    returned; [IndexError] is never raised.  [compute_controllable_sets]
    raises [AssertionError] exactly when [sdmin <= sdmax] or [0 <= sdmin]
    fails, [OverflowError] when one of its two powers overflows, and returns
    otherwise. *)
Theorem X8_what_the_entry_points_raise :
  well_formed _N sw ->
  (forall sd_start sd_end,
     (compute_parameterization SMALL pow2 _N sw solve_opt fwd sd_start sd_end
      = Run (Raise AssertionError) []
      <-> ((0 <=? sd_end) && (0 <=? sd_start))%float = false)
     /\ (is_nan sd_start = true \/ is_nan sd_end = true ->
         compute_parameterization SMALL pow2 _N sw solve_opt fwd sd_start sd_end
         = Run (Raise AssertionError) [])
     /\ (((0 <=? sd_end) && (0 <=? sd_start))%float = true ->
         match pow2 sd_end with
         | None =>
             compute_parameterization SMALL pow2 _N sw solve_opt fwd
               sd_start sd_end
             = Run (Raise OverflowError) []
         | Some _ =>
             exists K lb,
               compute_controllable_sets pow2 _N sw solve_opt sd_end sd_end
               = Run (Ret K) lb
               /\ match isnan_any_rows K, pow2 sd_start with
                  | true, _ =>
                      compute_parameterization SMALL pow2 _N sw solve_opt fwd
                        sd_start sd_end
                      = Run (Ret None) lb
                  | false, None =>
                      compute_parameterization SMALL pow2 _N sw solve_opt fwd
                        sd_start sd_end
                      = Run (Raise OverflowError) lb
                  | false, Some _ =>
                      exists r,
                        outcome (compute_parameterization SMALL pow2 _N sw
                                   solve_opt fwd sd_start sd_end) = Ret r
                  end
         end)
     /\ outcome (compute_parameterization SMALL pow2 _N sw solve_opt fwd
                   sd_start sd_end) <> Raise IndexError
     /\ outcome (compute_parameterization SMALL pow2 _N sw solve_opt fwd
                   sd_start sd_end) <> Raise NotImplementedError)
  /\ (forall sdmin sdmax,
        (compute_controllable_sets pow2 _N sw solve_opt sdmin sdmax
         = Run (Raise AssertionError) []
         <-> ((sdmin <=? sdmax) && (0 <=? sdmin))%float = false)
        /\ (((sdmin <=? sdmax) && (0 <=? sdmin))%float = true ->
            match pow2 sdmin, pow2 sdmax with
            | Some _, Some _ =>
                exists K,
                  outcome (compute_controllable_sets pow2 _N sw solve_opt
                             sdmin sdmax) = Ret K
            | _, _ =>
                compute_controllable_sets pow2 _N sw solve_opt sdmin sdmax
                = Run (Raise OverflowError) []
            end)).
Proof.
  intros Hwf.
  assert (Hsets : forall sdmin sdmax,
            ((sdmin <=? sdmax) && (0 <=? sdmin))%float = true ->
            match pow2 sdmin, pow2 sdmax with
            | Some _, Some _ =>
                exists K,
                  outcome (compute_controllable_sets pow2 _N sw solve_opt
                             sdmin sdmax) = Ret K
            | _, _ =>
                compute_controllable_sets pow2 _N sw solve_opt sdmin sdmax
                = Run (Raise OverflowError) []
            end).
  { intros sdmin sdmax Hassert.
    destruct (pow2 sdmin) as [x_min|] eqn:Hmin.
    2:{ apply controllable_sets_overflow; auto. }
    destruct (pow2 sdmax) as [x_max|] eqn:Hmax.
    2:{ apply controllable_sets_overflow; auto. }
    destruct (controllable_sets_run pow2 _N sw solve_opt sdmin sdmax
                x_min x_max Hwf Hassert Hmin Hmax)
      as (K & l & -> & _).
    eauto. }
  assert (Hparam : forall sd_start sd_end,
            ((0 <=? sd_end) && (0 <=? sd_start))%float = true ->
            match pow2 sd_end with
            | None =>
                compute_parameterization SMALL pow2 _N sw solve_opt fwd
                  sd_start sd_end
                = Run (Raise OverflowError) []
            | Some _ =>
                exists K lb,
                  compute_controllable_sets pow2 _N sw solve_opt sd_end sd_end
                  = Run (Ret K) lb
                  /\ match isnan_any_rows K, pow2 sd_start with
                     | true, _ =>
                         compute_parameterization SMALL pow2 _N sw solve_opt
                           fwd sd_start sd_end
                         = Run (Ret None) lb
                     | false, None =>
                         compute_parameterization SMALL pow2 _N sw solve_opt
                           fwd sd_start sd_end
                         = Run (Raise OverflowError) lb
                     | false, Some _ =>
                         exists r,
                           outcome (compute_parameterization SMALL pow2 _N sw
                                      solve_opt fwd sd_start sd_end) = Ret r
                     end
            end).
  { intros sd_start sd_end Hassert.
    destruct (pow2 sd_end) as [x_end|] eqn:Hend.
    2:{ now apply parameterization_overflow. }
    destruct (parameterization_run SMALL pow2 _N sw solve_opt fwd sd_start
                sd_end x_end Hwf Hassert Hend)
      as (K & lb & K0 & Eb & _ & _ & Hcase).
    exists K, (SetupSolver :: lb ++ [CloseSolver]). split; [exact Eb|].
    destruct (isnan_any_rows K); [exact Hcase|].
    destruct (pow2 sd_start) as [x_start|]; [|exact Hcase].
    destruct ((x_start + SMALL <? lo K0) || (hi K0 + SMALL <? x_start))%float.
    - rewrite Hcase. eauto.
    - destruct Hcase as (p & lf & -> & _). eauto. }
  assert (Hout : forall sd_start sd_end,
            ((0 <=? sd_end) && (0 <=? sd_start))%float = true ->
            outcome (compute_parameterization SMALL pow2 _N sw solve_opt fwd
                       sd_start sd_end) = Raise OverflowError
            \/ exists r,
                 outcome (compute_parameterization SMALL pow2 _N sw solve_opt
                            fwd sd_start sd_end) = Ret r).
  { intros sd_start sd_end Hassert.
    pose proof (Hparam sd_start sd_end Hassert) as H.
    destruct (pow2 sd_end); [|rewrite H; now left].
    destruct H as (K & lb & _ & H).
    destruct (isnan_any_rows K); [rewrite H; eauto|].
    destruct (pow2 sd_start); [now right|rewrite H; now left]. }
  split.
  - intros sd_start sd_end.
    split; [|split; [|split; [exact (Hparam sd_start sd_end)|]]].
    + split; [|apply parameterization_assert].
      intros E.
      destruct ((0 <=? sd_end) && (0 <=? sd_start))%float eqn:Hassert;
        [|reflexivity].
      destruct (Hout sd_start sd_end Hassert) as [H|[r H]];
        rewrite E in H; discriminate.
    + intros Hnan. apply parameterization_assert.
      destruct Hnan as [Hnan|Hnan].
      * rewrite (leb_nan_r 0 sd_start Hnan). apply andb_false_r.
      * now rewrite (leb_nan_r 0 sd_end Hnan).
    + destruct ((0 <=? sd_end) && (0 <=? sd_start))%float eqn:Hassert.
      * destruct (Hout sd_start sd_end Hassert) as [H|[r H]];
          rewrite H; split; discriminate.
      * rewrite (parameterization_assert SMALL pow2 _N sw solve_opt fwd
                   _ _ Hassert).
        split; discriminate.
  - intros sdmin sdmax. split; [split|exact (Hsets sdmin sdmax)].
    + intros E.
      destruct ((sdmin <=? sdmax) && (0 <=? sdmin))%float eqn:Hassert;
        [|reflexivity].
      pose proof (Hsets sdmin sdmax Hassert) as H.
      destruct (pow2 sdmin); [destruct (pow2 sdmax)|].
      * destruct H as [K H]. rewrite E in H. discriminate.
      * rewrite E in H. discriminate.
      * rewrite E in H. discriminate.
    + apply controllable_sets_assert.
Qed.

End CallFacts.

Section SinglePoint.

Context {Params : Type}.
Variable SMALL : float.
Variable pow2 : float -> option float.
Variable sw : @SolverWrapper Params.
Variable solve_opt : query -> optim_var.
Variable fwd : nat -> float -> interval -> forward_result.

Lemma single_point_sets (sdmin sdmax x_min x_max : float) :
  ((sdmin <=? sdmax) && (0 <=? sdmin))%float = true ->
  pow2 sdmin = Some x_min -> pow2 sdmax = Some x_max ->
  compute_controllable_sets pow2 0 sw solve_opt sdmin sdmax
  = Run (Ret [Interval x_min x_max]) [SetupSolver; CloseSolver].
Proof.
  intros Hassert Hmin Hmax. unfold compute_controllable_sets, py_pow2.
  rewrite Hassert, Hmin, Hmax. reflexivity.
Qed.

(** X9.  On a path of a single grid point ([N = 0]) no stage is solved.
    With [x_end] the value of [sd_end ** 2], [compute_controllable_sets]
    returns the one row [(x_end, x_end)] after an empty session.
    [compute_parameterization] then returns the empty triple when [x_end] is
    NaN; otherwise it raises [OverflowError] when [sd_start ** 2] overflows,
    returns the empty triple when the value [x_start] of [sd_start ** 2] is
    more than [SMALL] away from [x_end], and else returns empty [sdd_vec]
    and [v_vec] and the one velocity [sqrt x_start], after a second empty
    session. *)
Theorem X9_single_grid_point (sd_start sd_end x_end : float) :
  well_formed 0 sw ->
  ((0 <=? sd_end) && (0 <=? sd_start))%float = true ->
  pow2 sd_end = Some x_end ->
  compute_controllable_sets pow2 0 sw solve_opt sd_end sd_end
  = Run (Ret [Interval x_end x_end]) [SetupSolver; CloseSolver]
  /\ compute_parameterization SMALL pow2 0 sw solve_opt fwd sd_start sd_end
     = (if is_nan x_end then Run (Ret None) [SetupSolver; CloseSolver]
        else
          match pow2 sd_start with
          | None => Run (Raise OverflowError) [SetupSolver; CloseSolver]
          | Some x_start =>
              if ((x_start + SMALL <? x_end) || (x_end + SMALL <? x_start))%float
              then Run (Ret None) [SetupSolver; CloseSolver]
              else Run (Ret (Some ([], [PrimFloat.sqrt x_start], [])))
                       [SetupSolver; CloseSolver; SetupSolver; CloseSolver]
          end).
Proof.
  intros (HN & Hd & HnV) Hassert Hend.
  pose proof (single_point_sets sd_end sd_end x_end x_end
                (end_assert _ _ Hassert) Hend Hend) as Eb.
  split; [exact Eb|].
  unfold compute_parameterization, py_pow2. rewrite Hassert. simpl assert.
  rewrite bind_pure_Ret.
  unfold isnan_any_rows, isnan_any.
  destruct (is_nan x_end) eqn:Enan.
  - eapply bind_Run_nil; [exact Eb|].
    cbn [existsb lo hi]. now rewrite Enan.
  - destruct (pow2 sd_start) as [x_start|].
    + destruct ((x_start + SMALL <? x_end)
                || (x_end + SMALL <? x_start))%float eqn:Etol.
      * eapply bind_Run_nil; [exact Eb|].
        cbn [existsb lo hi]. rewrite Enan. cbn [orb]. rewrite bind_pure_Ret.
        change (getitem [?k] 0) with (Ret k). rewrite bind_pure_Ret.
        cbn [lo hi]. now rewrite Etol.
      * eapply (bind_Run _ _ [_; _] _ _ [_; _]); [exact Eb|].
        cbn [existsb lo hi]. rewrite Enan. cbn [orb]. rewrite bind_pure_Ret.
        change (getitem [?k] 0) with (Ret k). rewrite bind_pure_Ret.
        cbn [lo hi]. rewrite Etol.
        unfold forward_pass, get_no_stages. rewrite <- HN. reflexivity.
    + eapply bind_Run_nil; [exact Eb|].
      cbn [existsb lo hi]. rewrite Enan. reflexivity.
Qed.

End SinglePoint.

(** ** More about construction *)

Section ConstructionMore.

Context {Params : Type}.

Lemma eqb_not_nan (x y : float) :
  (x =? y)%float = true -> is_nan x = false /\ is_nan y = false.
Proof.
  rewrite !not_nan_Prim2SF, FloatAxioms.eqb_spec. unfold SFeqb.
  destruct (Prim2SF x) as [[]|[]| |[] ? ?];
    destruct (Prim2SF y) as [[]|[]| |[] ? ?]; simpl;
    intros H; (discriminate || (split; discriminate)).
Qed.

Lemma increasing_no_nan (a b : float) (grid : list float) :
  strictly_increasing (a :: b :: grid) = true ->
  Forall (fun s => is_nan s = false) (a :: b :: grid).
Proof.
  revert a b. induction grid as [|c grid IH]; intros a b H.
  - simpl in H. rewrite andb_true_r in H.
    destruct (ltb_not_nan _ _ H). repeat constructor; assumption.
  - change (strictly_increasing (a :: b :: c :: grid))
      with ((a <? b)%float && strictly_increasing (b :: c :: grid)) in H.
    apply andb_prop in H as [Hab Hrest].
    constructor; [now destruct (ltb_not_nan _ _ Hab)|].
    now apply IH.
Qed.

(** X10.  A wrapper that [SolverWrapper.__init__] returns keeps the grid and
    the constraints it was given, has one stage less than grid points, as
    many step sizes as stages, one parameter bundle per constraint, and
    [2] variables plus the extra variables of the constraints. *)
Theorem X10_constructed_wrapper (constraint_list : list (@Constraint Params))
    (path : Interpolator) (grid : list float) (w : @SolverWrapper Params) :
  SolverWrapper_init constraint_list path grid = Ret w ->
  get_no_stages w + 1 = length grid
  /\ length (get_deltas w) = get_no_stages w
  /\ get_no_vars w
     = 2 + foldr Nat.add 0 (map get_no_extra_vars constraint_list)
  /\ 2 <= get_no_vars w
  /\ length (params w) = length constraint_list
  /\ path_discretization w = grid
  /\ constraints w = constraint_list.
Proof.
  rewrite SolverWrapper_init_run.
  destruct (valid_grid path grid) eqn:Hvalid; [|discriminate].
  intros [= <-]. unfold get_no_stages, get_deltas, get_no_vars.
  cbn [N deltas nV params path_discretization constraints].
  rewrite step_sizes_length, length_map.
  assert (Hlen : 1 <= length grid).
  { destruct grid; [discriminate|simpl; lia]. }
  repeat split; lia.
Qed.

(** X11.  [SolverWrapper.__init__] accepts no NaN: when it returns, no grid
    point is NaN and neither bound of the path interval is. *)
Theorem X11_constructed_grid_has_no_nan
    (constraint_list : list (@Constraint Params))
    (path : Interpolator) (grid : list float) (w : @SolverWrapper Params) :
  SolverWrapper_init constraint_list path grid = Ret w ->
  Forall (fun s => is_nan s = false) grid
  /\ is_nan (fst (get_path_interval path)) = false
  /\ is_nan (snd (get_path_interval path)) = false.
Proof.
  rewrite SolverWrapper_init_run. unfold valid_grid.
  destruct (head grid) as [first|] eqn:Ehead; [|now destruct grid].
  destruct (last grid) as [final|] eqn:Elast; [|now destruct grid].
  destruct (fst (get_path_interval path) =? first)%float eqn:E1;
    [|discriminate].
  destruct (snd (get_path_interval path) =? final)%float eqn:E2;
    [|discriminate].
  destruct (strictly_increasing grid) eqn:E3; [|discriminate].
  intros _.
  destruct (eqb_not_nan _ _ E1) as [Hmin Hfirst].
  destruct (eqb_not_nan _ _ E2) as [Hmax _].
  split; [|now split].
  destruct grid as [|a [|b grid]].
  - discriminate.
  - injection Ehead as ->. now repeat constructor.
  - now apply increasing_no_nan.
Qed.

Variable construct :
  WrapperClass -> list (@Constraint Params) -> Interpolator -> list float ->
  result (@SolverWrapper Params).

(** [ReachabilityAlgorithm.__init__], run. *)
Lemma ReachabilityAlgorithm_init_run
    (constraint_list : list (@Constraint Params))
    (path : Interpolator) (gridpoints : list float)
    (solver_wrapper : option string) :
  ReachabilityAlgorithm_init construct constraint_list path gridpoints
    solver_wrapper
  = init_spec construct constraint_list path gridpoints solver_wrapper.
Proof.
  unfold ReachabilityAlgorithm_init, init_spec. rewrite has_conic_any.
  destruct solver_wrapper as [name|].
  - unfold choose_name. rewrite conic_names, supported_names.
    pose proof (select_class_of_name name) as Hsel.
    destruct (class_of_name (str_lower name)) as [cls|].
    + destruct (any_conic constraint_list); [destruct (conic_capable cls)|];
        cbn [assert andb negb mbind result_bind]; try reflexivity;
        now rewrite Hsel.
    + now destruct (any_conic constraint_list).
  - now destruct (any_conic constraint_list).
Qed.

(** X12.  The name of the solver wrapper is read without regard to case:
    two names with the same lower-case form give the same result. *)
Theorem X12_wrapper_name_ignores_case
    (constraint_list : list (@Constraint Params))
    (path : Interpolator) (gridpoints : list float) (name1 name2 : string) :
  str_lower name1 = str_lower name2 ->
  ReachabilityAlgorithm_init construct constraint_list path gridpoints
    (Some name1)
  = ReachabilityAlgorithm_init construct constraint_list path gridpoints
      (Some name2).
Proof.
  intros E. rewrite !ReachabilityAlgorithm_init_run. unfold init_spec.
  now rewrite E.
Qed.

(** X13.  [ReachabilityAlgorithm.__init__] never reaches its last branch,
    [raise NotImplementedError]: it fails an assertion, or goes on to build
    a wrapper of one of the four classes, and with a conic constraint in the
    list that class can solve conic problems. *)
Theorem X13_wrapper_choice_is_total
    (constraint_list : list (@Constraint Params))
    (path : Interpolator) (gridpoints : list float)
    (solver_wrapper : option string) :
  ReachabilityAlgorithm_init construct constraint_list path gridpoints
    solver_wrapper = Raise AssertionError
  \/ exists cls,
       ReachabilityAlgorithm_init construct constraint_list path gridpoints
         solver_wrapper
       = (w ← construct cls constraint_list path gridpoints; Ret (cls, w))
       /\ (has_conic constraint_list = true -> conic_capable cls = true).
Proof.
  rewrite ReachabilityAlgorithm_init_run, has_conic_any. unfold init_spec.
  destruct solver_wrapper as [name|].
  - destruct (class_of_name (str_lower name)) as [cls|]; [|now left].
    destruct (any_conic constraint_list); cbn [andb].
    + destruct (conic_capable cls) eqn:Ecap; cbn [negb]; [|now left].
      right. exists cls. now split.
    + right. exists cls. now split.
  - right. destruct (any_conic constraint_list); eexists; split;
      try reflexivity; try discriminate.
Qed.

(** X14.  The flag [has_conic] computed by the loop over the constraints is
    true exactly when some constraint of the list is of type
    [CanonicalConic], wherever it stands in the list. *)
Theorem X14_has_conic_finds_any_conic
    (constraint_list : list (@Constraint Params)) :
  has_conic constraint_list = true
  <-> exists c, c ∈ constraint_list
                /\ get_constraint_type c = CanonicalConic.
Proof.
  rewrite has_conic_any. unfold any_conic. rewrite existsb_exists.
  split; intros (c & Hin & Hc); exists c.
  - split; [now apply list_elem_of_In|].
    now destruct (get_constraint_type c).
  - split; [now apply list_elem_of_In|]. now rewrite Hc.
Qed.

(** X15.  Leaving the solver name out is the same as naming ["ecos"] when a
    constraint is conic and ["qpOASES"] otherwise. *)
Theorem X15_default_wrapper_name
    (constraint_list : list (@Constraint Params))
    (path : Interpolator) (gridpoints : list float) :
  ReachabilityAlgorithm_init construct constraint_list path gridpoints None
  = ReachabilityAlgorithm_init construct constraint_list path gridpoints
      (Some (if has_conic constraint_list then "ecos" else "qpOASES")%string).
Proof.
  rewrite !ReachabilityAlgorithm_init_run, has_conic_any. unfold init_spec.
  now destruct (any_conic constraint_list).
Qed.

End ConstructionMore.

(** ** The further properties at the scenario *)

Section ScenarioMore.

Import Scenario.
Local Open Scope float_scope.

Lemma point_well_formed : well_formed 0 point_wrapper.
Proof. unfold well_formed. simpl. repeat split; lia. Defined.

Lemma X1_scenario :
  well_formed 3 wrapper
  /\ exists X,
       compute_feasible_sets LARGE 3 wrapper box_solve
       = Run (Ret X)
             (SetupSolver
                :: flat_map (feasible_calls LARGE wrapper) (range (3 + 1))
                ++ [CloseSolver])
       /\ length X = (3 + 1)%nat
       /\ length (filter (fun e => is_solve e = true)
                    (log (compute_feasible_sets LARGE 3 wrapper box_solve)))
          = (2 * (3 + 1))%nat.
Proof.
  split; [exact scenario_well_formed|].
  exact (X1_feasible_sweep_calls LARGE 3 wrapper box_solve
           scenario_well_formed).
Defined.

Lemma X2_scenario :
  well_formed 3 wrapper
  /\ ((3 <=? 3) && (0 <=? 3))%bool = true
  /\ float_pow2 3 = Some 9
  /\ exists K,
       compute_controllable_sets float_pow2 3 wrapper box_solve 3 3
       = Run (Ret K)
             (SetupSolver
                :: flat_map (backward_calls 3 wrapper K) (range_down 3)
                ++ [CloseSolver])
       /\ (length (filter (fun e => is_solve e = true)
                     (log (compute_controllable_sets float_pow2 3 wrapper
                             box_solve 3 3)))
           <= 2 * 3)%nat
       /\ (isnan_any_rows K = false ->
           length (filter (fun e => is_solve e = true)
                     (log (compute_controllable_sets float_pow2 3 wrapper
                             box_solve 3 3)))
           = (2 * 3)%nat).
Proof.
  split; [exact scenario_well_formed|]. split; [reflexivity|].
  split; [reflexivity|].
  apply (X2_backward_pass_calls float_pow2 3 wrapper box_solve 3 3 9 9
           scenario_well_formed); reflexivity.
Defined.

Lemma X3_scenario :
  well_formed 3 wrapper
  /\ outcome (compute_parameterization SMALL float_pow2 3 wrapper box_solve
                none_forward 0 0)
     = Ret (Some ([1; nan; 1], [0; sqrt 2; nan; 0], [[]; []; []]))
  /\ exists x_start K p,
       float_pow2 0 = Some x_start
       /\ outcome (compute_controllable_sets float_pow2 3 wrapper box_solve
                     0 0) = Ret K
       /\ outcome (forward_pass 3 wrapper none_forward K x_start) = Ret p
       /\ log (compute_parameterization SMALL float_pow2 3 wrapper box_solve
                 none_forward 0 0)
          = log (compute_controllable_sets float_pow2 3 wrapper box_solve 0 0)
            ++ SetupSolver
               :: flat_map (forward_calls K (p_xs p)) (range 3)
               ++ [CloseSolver]
       /\ length (filter (fun e => is_forward e = true)
                    (log (compute_parameterization SMALL float_pow2 3 wrapper
                            box_solve none_forward 0 0)))
          = 3%nat.
Proof.
  split; [exact scenario_well_formed|]. split; [vm_compute; reflexivity|].
  apply (X3_forward_pass_calls SMALL float_pow2 3 wrapper box_solve
           none_forward 0 0
           ([1; nan; 1], [0; sqrt 2; nan; 0], [[]; []; []])
           scenario_well_formed).
  vm_compute. reflexivity.
Defined.

Lemma X4_scenario :
  well_formed 3 wrapper
  /\ outcome (compute_parameterization SMALL float_pow2 3 wrapper box_solve
                box_forward 0 0)
     = Ret (Some ([1; 0; -1], [0; sqrt 2; sqrt 2; 0], [[]; []; []]))
  /\ length [1; 0; -1] = 3%nat
  /\ length [0; sqrt 2; sqrt 2; 0] = (3 + 1)%nat
  /\ length ([[]; []; []] : list (list float)) = 3%nat
  /\ (exists x_start,
        float_pow2 0 = Some x_start
        /\ [0; sqrt 2; sqrt 2; 0] !! 0%nat = Some (sqrt x_start))
  /\ forall (i : nat) v, [0; sqrt 2; sqrt 2; 0] !! i = Some v ->
       is_nan v = true \/ (0 <=? v) = true.
Proof.
  split; [exact scenario_well_formed|]. split; [vm_compute; reflexivity|].
  apply (X4_profile_shape SMALL float_pow2 3 wrapper box_solve box_forward
           0 0 [1; 0; -1] [0; sqrt 2; sqrt 2; 0] [[]; []; []]
           scenario_well_formed).
  vm_compute. reflexivity.
Defined.

Lemma X5_scenario :
  well_formed 3 wrapper
  /\ outcome (compute_parameterization SMALL float_pow2 3 wrapper box_solve
                box_forward 0 0)
     = Ret (Some ([1; 0; -1], [0; sqrt 2; sqrt 2; 0], [[]; []; []]))
  /\ exists x_start K p,
       float_pow2 0 = Some x_start
       /\ outcome (compute_controllable_sets float_pow2 3 wrapper box_solve
                     0 0) = Ret K
       /\ outcome (forward_pass 3 wrapper box_forward K x_start) = Ret p
       /\ ([1; 0; -1], [0; sqrt 2; sqrt 2; 0], [[]; []; []])
          = (p_us p, map PrimFloat.sqrt (p_xs p), p_v_vec p)
       /\ forall (i : nat) x k,
            p_xs p !! (i + 1)%nat = Some x -> K !! (i + 1)%nat = Some k ->
            (is_nan x = true
             /\ exists x', p_xs p !! i = Some x'
                           /\ box_forward i x' k = FirstIsNone)
            \/ ((x <=? hi k) = true /\ (within x k = true \/ x = hi k)).
Proof.
  split; [exact scenario_well_formed|]. split; [vm_compute; reflexivity|].
  apply (X5_profile_below_upper_bound SMALL float_pow2 3 wrapper box_solve
           box_forward 0 0 _ scenario_well_formed).
  vm_compute. reflexivity.
Defined.

Lemma X6_scenario :
  well_formed 3 wrapper
  /\ outcome (compute_parameterization SMALL float_pow2 3 wrapper box_solve
                failing_forward 0 0)
     = Ret (Some ([1; nan; 0], [0; sqrt 2; 0; 0], [[]; []; []]))
  /\ exists x_start K p,
       float_pow2 0 = Some x_start
       /\ outcome (compute_controllable_sets float_pow2 3 wrapper box_solve
                     0 0) = Ret K
       /\ outcome (forward_pass 3 wrapper failing_forward K x_start) = Ret p
       /\ forall (i : nat) x k r,
            (i < 3)%nat -> p_xs p !! i = Some x ->
            K !! (i + 1)%nat = Some k ->
            failing_forward i x k = Optimal r -> is_nan (var_u r) = true ->
            let bound := if lo k <? hi k then lo k else hi k in
            [1; nan; 0] !! i = Some (var_u r)
            /\ p_xs p !! (i + 1)%nat = Some bound
            /\ is_nan bound = false
            /\ [0; sqrt 2; 0; 0] !! (i + 1)%nat = Some (sqrt bound).
Proof.
  split; [exact scenario_well_formed|]. split; [vm_compute; reflexivity|].
  apply (X6_nan_control_stores_bound SMALL float_pow2 3 wrapper box_solve
           failing_forward 0 0 [1; nan; 0] [0; sqrt 2; 0; 0] [[]; []; []]
           scenario_well_formed).
  vm_compute. reflexivity.
Defined.

Lemma X7_scenario :
  well_formed 3 wrapper
  /\ outcome (compute_parameterization SMALL float_pow2 3 wrapper box_solve
                none_forward 0 0)
     = Ret (Some ([1; nan; 1], [0; sqrt 2; nan; 0], [[]; []; []]))
  /\ exists x_start K p,
       float_pow2 0 = Some x_start
       /\ outcome (compute_controllable_sets float_pow2 3 wrapper box_solve
                     0 0) = Ret K
       /\ outcome (forward_pass 3 wrapper none_forward K x_start) = Ret p
       /\ forall (i : nat) x k,
            (i < 3)%nat -> p_xs p !! i = Some x ->
            K !! (i + 1)%nat = Some k ->
            none_forward i x k = FirstIsNone ->
            [1; nan; 1] !! i = Some nan
            /\ p_xs p !! (i + 1)%nat = Some nan
            /\ [0; sqrt 2; nan; 0] !! (i + 1)%nat = Some nan
            /\ ([[]; []; []] : list (list float)) !! i
               = Some (replicate (get_no_vars wrapper - 2) nan).
Proof.
  split; [exact scenario_well_formed|]. split; [vm_compute; reflexivity|].
  apply (X7_none_marks_stage SMALL float_pow2 3 wrapper box_solve
           none_forward 0 0
           [1; nan; 1] [0; sqrt 2; nan; 0] [[]; []; []]
           scenario_well_formed).
  vm_compute. reflexivity.
Defined.

(** The two overflows at the scenario: of [sd_end ** 2], before any call, and
    of [sd_start ** 2], after the session of the backward pass. *)
Example overflow_before_any_call :
  compute_parameterization SMALL float_pow2 3 wrapper box_solve box_forward
    0 1e200
  = Run (Raise OverflowError) [].
Proof. reflexivity. Qed.

Example overflow_after_backward_pass :
  outcome (compute_parameterization SMALL float_pow2 3 wrapper box_solve
             box_forward 1e200 0)
  = Raise OverflowError
  /\ log (compute_parameterization SMALL float_pow2 3 wrapper box_solve
            box_forward 1e200 0)
     = log (compute_controllable_sets float_pow2 3 wrapper box_solve 0 0)
  /\ length (log (compute_controllable_sets float_pow2 3 wrapper box_solve
                    0 0)) = 8%nat.
Proof. vm_compute. repeat split; reflexivity. Qed.

Lemma X8_scenario :
  well_formed 3 wrapper
  /\ (forall sd_start sd_end,
        (compute_parameterization SMALL float_pow2 3 wrapper box_solve
           box_forward sd_start sd_end = Run (Raise AssertionError) []
         <-> ((0 <=? sd_end) && (0 <=? sd_start))%bool = false)
        /\ (is_nan sd_start = true \/ is_nan sd_end = true ->
            compute_parameterization SMALL float_pow2 3 wrapper box_solve
              box_forward sd_start sd_end = Run (Raise AssertionError) [])
        /\ (((0 <=? sd_end) && (0 <=? sd_start))%bool = true ->
            match float_pow2 sd_end with
            | None =>
                compute_parameterization SMALL float_pow2 3 wrapper box_solve
                  box_forward sd_start sd_end
                = Run (Raise OverflowError) []
            | Some _ =>
                exists K lb,
                  compute_controllable_sets float_pow2 3 wrapper box_solve
                    sd_end sd_end
                  = Run (Ret K) lb
                  /\ match isnan_any_rows K, float_pow2 sd_start with
                     | true, _ =>
                         compute_parameterization SMALL float_pow2 3 wrapper
                           box_solve box_forward sd_start sd_end
                         = Run (Ret None) lb
                     | false, None =>
                         compute_parameterization SMALL float_pow2 3 wrapper
                           box_solve box_forward sd_start sd_end
                         = Run (Raise OverflowError) lb
                     | false, Some _ =>
                         exists r,
                           outcome (compute_parameterization SMALL float_pow2
                                      3 wrapper box_solve box_forward
                                      sd_start sd_end) = Ret r
                     end
            end)
        /\ outcome (compute_parameterization SMALL float_pow2 3 wrapper
                      box_solve box_forward sd_start sd_end)
           <> Raise IndexError
        /\ outcome (compute_parameterization SMALL float_pow2 3 wrapper
                      box_solve box_forward sd_start sd_end)
           <> Raise NotImplementedError)
  /\ (forall sdmin sdmax,
        (compute_controllable_sets float_pow2 3 wrapper box_solve sdmin sdmax
         = Run (Raise AssertionError) []
         <-> ((sdmin <=? sdmax) && (0 <=? sdmin))%bool = false)
        /\ (((sdmin <=? sdmax) && (0 <=? sdmin))%bool = true ->
            match float_pow2 sdmin, float_pow2 sdmax with
            | Some _, Some _ =>
                exists K,
                  outcome (compute_controllable_sets float_pow2 3 wrapper
                             box_solve sdmin sdmax) = Ret K
            | _, _ =>
                compute_controllable_sets float_pow2 3 wrapper box_solve
                  sdmin sdmax
                = Run (Raise OverflowError) []
            end)).
Proof.
  split; [exact scenario_well_formed|].
  exact (X8_what_the_entry_points_raise SMALL float_pow2 3 wrapper box_solve
           box_forward scenario_well_formed).
Defined.

Lemma X9_scenario :
  well_formed 0 point_wrapper
  /\ ((0 <=? 1) && (0 <=? 1))%bool = true
  /\ float_pow2 1 = Some 1
  /\ compute_controllable_sets float_pow2 0 point_wrapper box_solve 1 1
     = Run (Ret [Interval 1 1]) [SetupSolver; CloseSolver]
  /\ compute_parameterization SMALL float_pow2 0 point_wrapper box_solve
       box_forward 1 1
     = Run (Ret (Some ([], [sqrt 1], [])))
           [SetupSolver; CloseSolver; SetupSolver; CloseSolver].
Proof.
  split; [exact point_well_formed|]. split; [reflexivity|].
  split; [reflexivity|].
  exact (X9_single_grid_point SMALL float_pow2 point_wrapper box_solve
           box_forward 1 1 1 point_well_formed eq_refl eq_refl).
Defined.

Lemma X10_scenario :
  SolverWrapper_init [] the_path grid = Ret wrapper
  /\ (get_no_stages wrapper + 1 = length grid)%nat
  /\ length (get_deltas wrapper) = get_no_stages wrapper
  /\ get_no_vars wrapper
     = (2 + foldr Nat.add 0
              (map get_no_extra_vars ([] : list (@Constraint unit))))%nat
  /\ (2 <= get_no_vars wrapper)%nat
  /\ length (params wrapper) = length ([] : list (@Constraint unit))
  /\ path_discretization wrapper = grid
  /\ constraints wrapper = [].
Proof.
  split; [reflexivity|].
  apply (X10_constructed_wrapper [] the_path grid wrapper). reflexivity.
Defined.

Lemma X11_scenario :
  SolverWrapper_init [] the_path grid = Ret wrapper
  /\ Forall (fun s => is_nan s = false) grid
  /\ is_nan (fst (get_path_interval the_path)) = false
  /\ is_nan (snd (get_path_interval the_path)) = false.
Proof.
  split; [reflexivity|].
  apply (X11_constructed_grid_has_no_nan [] the_path grid wrapper).
  reflexivity.
Defined.

Lemma X12_scenario :
  str_lower "HotQpOASES" = str_lower "hotqpoases"
  /\ ReachabilityAlgorithm_init construct [linear_constraint] the_path grid
       (Some "HotQpOASES"%string)
     = ReachabilityAlgorithm_init construct [linear_constraint] the_path grid
         (Some "hotqpoases"%string).
Proof.
  split; [reflexivity|].
  apply (X12_wrapper_name_ignores_case construct [linear_constraint] the_path
           grid "HotQpOASES" "hotqpoases").
  reflexivity.
Defined.

End ScenarioMore.
